(** * GEDCOM 5.5 parser of [python_gedcom_2/parser.py]: model and verification

    The development follows the source file top-down:
    - Python strings and the string methods the parser calls;
    - the backtracking regular expressions of [Parser.parse_line];
    - the heap of [Element] objects and the [Parser] object;
    - [parse_line], [parse] and the relationship queries;
    - the properties of the specification. *)

From stdpp Require Import gmap list numbers strings.
From Stdlib Require Import ZArith Lia.

Open Scope Z_scope.

(** ** Python strings

    A Python [str] is a sequence of Unicode code points; a code point is a
    natural number. *)

Abbreviation char := N (only parsing).
Abbreviation str := (list N) (only parsing).

(** String literals of the source, as sequences of code points. *)
Definition py (s : string) : str :=
  Ascii.N_of_ascii <$> String.list_ascii_of_string s.

Definition LF : char := 10%N.
Definition CR : char := 13%N.
Definition SPACE : char := 32%N.

(** [str.isspace] on one code point: the white-space table of CPython. *)
Definition isspace (c : char) : bool :=
  ((9 <=? c) && (c <=? 13) || (28 <=? c) && (c <=? 32)
   || (c =? 133) || (c =? 160) || (c =? 5760)
   || (8192 <=? c) && (c <=? 8202)
   || (c =? 8232) || (c =? 8233) || (c =? 8239) || (c =? 8287)
   || (c =? 12288))%N.

Module PyStr.

(** [s.lstrip(chars)], [s.rstrip(chars)]: the set of characters to drop is
    given as a predicate. *)
Fixpoint lstrip (p : char → bool) (s : str) : str :=
  match s with
  | c :: s' => if p c then lstrip p s' else s
  | [] => []
  end.

Definition rstrip (p : char → bool) (s : str) : str :=
  reverse (lstrip p (reverse s)).

(** [s.strip()]: white space is removed at both ends. *)
Definition strip (s : str) : str := rstrip isspace (lstrip isspace s).

(** [s.split(sep)] for a one-character separator: never empty. *)
Fixpoint split (sep : char) (s : str) : list str :=
  match s with
  | [] => [[]]
  | c :: s' =>
      if (c =? sep)%N then [] :: split sep s'
      else match split sep s' with
           | l :: ls => (c :: l) :: ls
           | [] => [[c]]
           end
  end.

(** The default of [sys.get_int_max_str_digits()]: the longest string of
    digits that [int] converts. *)
Definition int_max_str_digits : nat := 4300.

(** The number that a string of decimal digits writes. *)
Definition decimal (s : str) : Z :=
  Z.of_N (foldl (λ acc c, acc * 10 + (c - 48))%N 0%N s).

(** [int(s)] on a string of ASCII decimal digits, the only strings that the
    level pattern captures.  [None] stands for [ValueError]: it is raised
    for the empty string and for more digits than the interpreter
    converts. *)
Definition int (s : str) : option Z :=
  if decide (s = []) then None
  else if (length s <=? int_max_str_digits)%nat then Some (decimal s)
  else None.

End PyStr.

(** ** Regular expressions

    [re.match] is a backtracking matcher anchored at the start of the
    string: alternatives are tried left to right, quantifiers are greedy,
    and the first way to match the whole pattern wins.  The model keeps
    the candidates of every sub-pattern in that order of preference.  All
    quantifiers of the source apply to character classes. *)

Module Re.

Inductive regex : Type :=
| Lit (c : char)
| Class (p : char → bool)
| Eps
| Seq (r1 r2 : regex)
| Alt (r1 r2 : regex)
| Star (p : char → bool)
| Group (r : regex).

(** [p+] and [p{1,2}] *)
Definition Plus (p : char → bool) : regex := Seq (Class p) (Star p).
Definition OneOrTwo (p : char → bool) : regex :=
  Seq (Class p) (Alt (Class p) Eps).

(** One way of matching: the text consumed, the groups captured (in the
    order of their opening parenthesis) and the text left. *)
Definition candidate : Type := str * list str * str.

(** Greedy star: the longest run first, then shorter ones. *)
Fixpoint star (p : char → bool) (s : str) : list (str * str) :=
  match s with
  | c :: s' =>
      if p c then ((λ mr, (c :: mr.1, mr.2)) <$> star p s') ++ [([], s)]
      else [([], s)]
  | [] => [([], [])]
  end.

Fixpoint run (r : regex) (s : str) : list candidate :=
  match r with
  | Lit c =>
      match s with
      | x :: s' => if (x =? c)%N then [([x], [], s')] else []
      | [] => []
      end
  | Class p =>
      match s with
      | x :: s' => if p x then [([x], [], s')] else []
      | [] => []
      end
  | Eps => [([], [], s)]
  | Seq r1 r2 =>
      c1 ← run r1 s;
      c2 ← run r2 c1.2;
      [(c1.1.1 ++ c2.1.1, c1.1.2 ++ c2.1.2, c2.2)]
  | Alt r1 r2 => run r1 s ++ run r2 s
  | Star p => (λ mr, (mr.1, [], mr.2)) <$> star p s
  | Group r =>
      (λ c : candidate, (c.1.1, c.1.1 :: c.1.2, c.2)) <$> run r s
  end.

(** [re.match(r, s)]: [None], or the match object's [groups()]. *)
Definition re_match (r : regex) (s : str) : option (list str) :=
  (λ c : candidate, c.1.2) <$> head (run r s).

End Re.

Import Re.

(** *** The patterns of [Parser.parse_line] *)

Definition is_digit (c : char) : bool := ((48 <=? c) && (c <=? 57))%N.
Definition is_nonzero_digit (c : char) : bool := ((49 <=? c) && (c <=? 57))%N.
Definition is_not_at (c : char) : bool := negb (c =? 64)%N.
Definition is_tag_char (c : char) : bool :=
  ((65 <=? c) && (c <=? 90) || (97 <=? c) && (c <=? 122)
   || (48 <=? c) && (c <=? 57) || (c =? 95))%N.
Definition is_eol (c : char) : bool := ((c =? CR) || (c =? LF))%N.
Definition is_not_eol (c : char) : bool := negb ((c =? LF) || (c =? CR))%N.

(** [level_regex]: start of string, group 1 = [0] or [[1-9]+] then
    [[0-9]*], then one space. *)
Definition level_regex : regex :=
  Seq (Group (Alt (Lit 48) (Seq (Plus is_nonzero_digit) (Star is_digit))))
      (Lit SPACE).

(** [pointer_regex]: group 2 = [@], [[^@]+], [@] and one space, or empty. *)
Definition pointer_regex : regex :=
  Group (Alt (Seq (Lit 64) (Seq (Plus is_not_at) (Seq (Lit 64) (Lit SPACE))))
             Eps).

(** [tag_regex]: group 3 = [[A-Za-z0-9_]+]. *)
Definition tag_regex : regex := Group (Plus is_tag_char).

(** [value_regex]: group 4 = one space then [[^\n\r]*], or empty. *)
Definition value_regex : regex :=
  Group (Alt (Seq (Lit SPACE) (Star is_not_eol)) Eps).

(** [end_of_line_regex]: group 5 = [[\r\n]{1,2}]. *)
Definition end_of_line_regex : regex := Group (OneOrTwo is_eol).

Definition gedcom_line_regex : regex :=
  Seq level_regex (Seq pointer_regex (Seq tag_regex
    (Seq value_regex end_of_line_regex))).

Definition last_line_regex : regex :=
  Seq level_regex (Seq pointer_regex (Seq tag_regex value_regex)).

(** [line_regex]: group 1 = [[^\n\r]*] or empty; [cont_line_regex] adds the
    end of line. *)
Definition line_regex : regex := Group (Alt (Star is_not_eol) Eps).
Definition cont_line_regex : regex := Seq line_regex end_of_line_regex.

(** ** Tags

    The constants of [python_gedcom_2.tags] that the parser reads (the
    GEDCOM 5.5 tag names). *)

Definition GEDCOM_TAG_CONCATENATION : str := py "CONC".
Definition GEDCOM_TAG_CONTINUED : str := py "CONT".
Definition GEDCOM_TAG_INDIVIDUAL : str := py "INDI".
Definition GEDCOM_TAG_FAMILY : str := py "FAM".
Definition GEDCOM_TAG_FAMILY_CHILD : str := py "FAMC".
Definition GEDCOM_TAG_FAMILY_SPOUSE : str := py "FAMS".
Definition GEDCOM_TAG_HUSBAND : str := py "HUSB".
Definition GEDCOM_TAG_WIFE : str := py "WIFE".
Definition GEDCOM_TAG_MARRIAGE : str := py "MARR".
Definition GEDCOM_TAG_DATE : str := py "DATE".
Definition GEDCOM_TAG_PLACE : str := py "PLAC".

(** ** Elements and the heap

    Elements are mutable objects that refer to each other (a parent lists
    its children, a child points back to its parent), so they live in a
    heap and are named by their address.  A Python reference is an address
    of the heap; [None] is [None]. *)

Abbreviation eid := nat (only parsing).

Record Element : Type := mkElement {
  get_level : Z;
  get_pointer : option str;
  get_tag : str;
  get_value : str;
  get_crlf : str;
  get_child_elements : list eid;
  get_parent_element : option eid
}.

(** Modelled from the spec: the class [RootElement] is not in the sources;
    the root is the virtual node of level -1 that owns the top-level
    records and has no parent. *)
Definition RootElement : Element :=
  mkElement (-1) (Some []) (py "ROOT") [] [] [] None.

(** The [Parser] object (its three private fields) and the heap of the
    elements it refers to. *)
Record State : Type := mkState {
  heap : list Element;
  element_list : list eid;
  element_dictionary : gmap (list N) eid;
  root_element : eid
}.

(** ** Exceptions and the monad of the parser's methods *)

Inductive exn : Type :=
| GedcomFormatViolationError (line_number : nat) (line : option str)
| NotAnActualIndividualError
| AttributeError      (* a method called on [None] *)
| ValueError          (* [int] on a string that it does not convert *)
| RecursionError      (* the interpreter's recursion limit is reached *)
| Nontermination.     (* not an exception: a loop that never ends *)

Inductive result (A : Type) : Type :=
| Ok (a : A)
| Raise (e : exn).
Arguments Ok {A} a.
Arguments Raise {A} e.

(** A method reads and updates the state and returns or raises; the
    updates made before an exception stay. *)
Definition M (A : Type) : Type := State → result A * State.

Definition ret {A} (a : A) : M A := λ st, (Ok a, st).
Definition raise {A} (e : exn) : M A := λ st, (Raise e, st).
Definition bind {A B} (m : M A) (k : A → M B) : M B :=
  λ st, match m st with
        | (Ok a, st') => k a st'
        | (Raise e, st') => (Raise e, st')
        end.
Definition lift {A} (r : result A) : M A := λ st, (r, st).
Definition get_heap : M (list Element) := λ st, (Ok (heap st), st).

Declare Scope py_scope.
Delimit Scope py_scope with py.
Notation "x <- m ;; k" := (bind m (λ x, k))
  (at level 100, m at next level, right associativity) : py_scope.
Notation "m ;;; k" := (bind m (λ _, k))
  (at level 100, right associativity) : py_scope.
Open Scope py_scope.

(** Attribute access through a reference; an address outside the heap
    names no object and is treated like [None]. *)
Definition deref (h : list Element) (i : eid) : result Element :=
  match h !! i with
  | Some e => Ok e
  | None => Raise AttributeError
  end.

(** [Parser.__init__] *)
Definition Parser__init__ : State :=
  mkState [RootElement] [] ∅ 0%nat.

(** [Parser.invalidate_cache] *)
Definition invalidate_cache : M unit :=
  λ st, (Ok (), mkState (heap st) [] ∅ (root_element st)).

(** [self.__root_element = RootElement()] *)
Definition new_root_element : M unit :=
  λ st, (Ok (), mkState (heap st ++ [RootElement]) (element_list st)
                  (element_dictionary st) (length (heap st))).

(** [Parser.get_root_element] *)
Definition get_root_element : M eid := λ st, (Ok (root_element st), st).

(** [Parser.get_root_child_elements] *)
Definition get_root_child_elements : M (list eid) :=
  root <- get_root_element;;
  h <- get_heap;;
  e <- lift (deref h root);;
  ret (get_child_elements e).

(** Modelled from the spec: [ElementCreator.create_element] is not in the
    sources; it builds a fresh element holding the five fields, with no
    children and no parent (the Individual and Family specialisations are
    decided by the tag, see [is_IndividualElement]). *)
Definition create_element (level : Z) (pointer : option str) (tag value crlf : str)
  : M eid :=
  λ st, (Ok (length (heap st)),
         mkState (heap st ++ [mkElement level pointer tag value crlf [] None])
                 (element_list st) (element_dictionary st) (root_element st)).

(** Modelled from the spec: [Element.add_child_element] is not in the
    sources; the child is appended to the children of [self] (source
    order) and its parent link is set to [self]. *)
Definition with_child (e : Element) (c : eid) : Element :=
  mkElement (get_level e) (get_pointer e) (get_tag e) (get_value e)
            (get_crlf e) (get_child_elements e ++ [c]) (get_parent_element e).

Definition with_parent (e : Element) (p : eid) : Element :=
  mkElement (get_level e) (get_pointer e) (get_tag e) (get_value e)
            (get_crlf e) (get_child_elements e) (Some p).

Definition add_child_element (self element : eid) : M unit :=
  λ st,
    match heap st !! self with
    | Some p =>
        let h1 := <[self := with_child p element]> (heap st) in
        match h1 !! element with
        | Some c =>
            (Ok (), mkState (<[element := with_parent c self]> h1)
                      (element_list st) (element_dictionary st)
                      (root_element st))
        | None => (Raise AttributeError, st)
        end
    | None => (Raise AttributeError, st)
    end.

(** ** [Parser.parse_line] *)

(** [line_parts[i]] *)
Definition part (line_parts : list str) (i : nat) : str := nth i line_parts [].

(** The first half of [parse_line]: the five fields read from the line,
    by the primary grammar or by one of the two lenient recoveries. *)
Definition line_fields (line_number : nat) (line : str) (last_element : Element)
    (strict : bool) : result (Z * option str * str * str * str) :=
  match re_match gedcom_line_regex line with
  | None =>
      if strict then
        Raise (GedcomFormatViolationError line_number (Some line))
      else
        match re_match last_line_regex line with
        | Some line_parts =>
            match PyStr.int (part line_parts 0) with
            | None => Raise ValueError
            | Some level =>
                Ok (level,
                    Some (PyStr.rstrip (N.eqb SPACE) (part line_parts 1)),
                    part line_parts 2,
                    PyStr.strip (part line_parts 3),
                    [LF])
            end
        | None =>
            match re_match cont_line_regex line with
            | None => Raise AttributeError  (* [regex_match.groups()] on [None] *)
            | Some line_parts =>
                let level := get_level last_element in
                let tag := get_tag last_element in
                let value := PyStr.strip (part line_parts 0) in
                let crlf := part line_parts 1 in
                if bool_decide (tag ≠ GEDCOM_TAG_CONTINUED)
                   && bool_decide (tag ≠ GEDCOM_TAG_CONCATENATION)
                then Ok (level + 1, None, GEDCOM_TAG_CONCATENATION, value, crlf)
                else Ok (level, None, tag, value, crlf)
            end
        end
  | Some line_parts =>
      match PyStr.int (part line_parts 0) with
      | None => Raise ValueError
      | Some level =>
          Ok (level,
              Some (PyStr.rstrip (N.eqb SPACE) (part line_parts 1)),
              part line_parts 2,
              PyStr.strip (part line_parts 3),
              part line_parts 4)
      end
  end.

(** [while parent_element.get_level() > level - 1: parent_element =
    parent_element.get_parent_element()].  Every turn of the loop moves to
    another object; a loop that has made more turns than the heap has
    objects is on a cycle of parent links and never ends. *)
Fixpoint walk_up (fuel : nat) (h : list Element) (parent_element : option eid)
    (level : Z) : result eid :=
  match parent_element with
  | None => Raise AttributeError
  | Some p =>
      match h !! p with
      | None => Raise AttributeError
      | Some e =>
          if get_level e >? level - 1 then
            match fuel with
            | O => Raise Nontermination
            | S fuel' => walk_up fuel' h (get_parent_element e) level
            end
          else Ok p
      end
  end.

Definition parse_line (line_number : nat) (line : str) (last_element : eid)
    (strict : bool) : M eid :=
  h <- get_heap;;
  last <- lift (deref h last_element);;
  fields <- lift (line_fields line_number line last strict);;
  let '(level, pointer, tag, value, crlf) := fields in
  if level >? get_level last + 1 then
    raise (GedcomFormatViolationError line_number None)
  else
    element <- create_element level pointer tag value crlf;;
    h' <- get_heap;;
    parent_element <- lift (walk_up (length h') h' (Some last_element) level);;
    add_child_element parent_element element;;;
    ret element.

(** ** [Parser.parse] *)

(** The loop [for line in ...: last_element = self.parse_line(...);
    line_number += 1]. *)
Fixpoint parse_lines (line_number : nat) (lines : list str) (last_element : eid)
    (strict : bool) : M eid :=
  match lines with
  | [] => ret last_element
  | line :: lines' =>
      last_element' <- parse_line line_number line last_element strict;;
      parse_lines (S line_number) lines' last_element' strict
  end.

Definition parse (string : str) (strict : bool) : M unit :=
  invalidate_cache;;;
  new_root_element;;;
  last_element <- get_root_element;;
  parse_lines 1 (PyStr.split LF (PyStr.strip string)) last_element strict;;;
  ret ().

(** ** The pointer index *)

(** The dictionary comprehension of [get_element_dictionary]: a later
    record with the same pointer replaces an earlier one. *)
Definition build_dictionary (h : list Element) (records : list eid)
  : gmap (list N) eid :=
  foldl (λ d i,
           match h !! i with
           | Some e =>
               match get_pointer e with
               | Some (c :: p) => <[c :: p := i]> d
               | _ => d
               end
           | None => d
           end) ∅ records.

Definition set_element_dictionary (d : gmap (list N) eid) : M unit :=
  λ st, (Ok (), mkState (heap st) (element_list st) d (root_element st)).

(** [Parser.get_element_dictionary]: built on first use, then cached. *)
Definition get_element_dictionary : M (gmap (list N) eid) :=
  λ st,
    if decide (element_dictionary st = ∅) then
      (records <- get_root_child_elements;;
       h <- get_heap;;
       set_element_dictionary (build_dictionary h records);;;
       ret (build_dictionary h records)) st
    else (Ok (element_dictionary st), st).

(** [Parser.get_element_by_pointer] *)
Definition get_element_by_pointer (pointer : str) : M (option eid) :=
  element_dictionary <- get_element_dictionary;;
  ret (element_dictionary !! pointer).

(** ** Individuals and families

    The classes [IndividualElement] and [FamilyElement] are not in the
    sources; they are views of the generic element, distinguished by its
    tag. *)

(** The child objects of an element, in source order. *)
Definition child_elements (h : list Element) (e : Element) : list Element :=
  omap (λ i, h !! i) (get_child_elements e).

Definition children_with_tag (h : list Element) (e : Element) (tag : str)
  : list Element :=
  filter (λ c, get_tag c = tag) (child_elements h e).

(** Modelled from the spec: [isinstance(x, IndividualElement)]; an element
    is an Individual when its tag is the individual tag.  [None] is not. *)
Definition as_individual (h : list Element) (x : option eid) : option Element :=
  i ← x; e ← h !! i;
  if bool_decide (get_tag e = GEDCOM_TAG_INDIVIDUAL) then Some e else None.

(** Modelled from the spec: [isinstance(x, FamilyElement)], by the family
    tag. *)
Definition as_family (h : list Element) (x : option eid) : option Element :=
  i ← x; e ← h !! i;
  if bool_decide (get_tag e = GEDCOM_TAG_FAMILY) then Some e else None.

(** Modelled from the spec: [IndividualElement.is_child_in_a_family] and
    [get_parent_family_pointer]; an Individual may declare a child-in-family
    link whose value is the pointer of the family where it is a child. *)
Definition is_child_in_a_family (h : list Element) (e : Element) : bool :=
  bool_decide (children_with_tag h e GEDCOM_TAG_FAMILY_CHILD ≠ []).

Definition get_parent_family_pointer (h : list Element) (e : Element) : str :=
  match children_with_tag h e GEDCOM_TAG_FAMILY_CHILD with
  | c :: _ => get_value c
  | [] => []
  end.

(** Modelled from the spec: [FamilyElement.has_husband], [has_wife],
    [get_husband_pointer] and [get_wife_pointer]; a Family declares a
    husband pointer and a wife pointer, each of which may be missing. *)
Definition has_husband (h : list Element) (e : Element) : bool :=
  bool_decide (children_with_tag h e GEDCOM_TAG_HUSBAND ≠ []).

Definition has_wife (h : list Element) (e : Element) : bool :=
  bool_decide (children_with_tag h e GEDCOM_TAG_WIFE ≠ []).

Definition get_husband_pointer (h : list Element) (e : Element) : str :=
  match children_with_tag h e GEDCOM_TAG_HUSBAND with
  | c :: _ => get_value c
  | [] => []
  end.

Definition get_wife_pointer (h : list Element) (e : Element) : str :=
  match children_with_tag h e GEDCOM_TAG_WIFE with
  | c :: _ => get_value c
  | [] => []
  end.

#[global] Arguments as_individual : simpl never.
#[global] Arguments as_family : simpl never.
#[global] Arguments child_elements : simpl never.
#[global] Arguments children_with_tag : simpl never.
#[global] Arguments is_child_in_a_family : simpl never.
#[global] Arguments get_parent_family_pointer : simpl never.
#[global] Arguments has_husband : simpl never.
#[global] Arguments has_wife : simpl never.
#[global] Arguments get_husband_pointer : simpl never.
#[global] Arguments get_wife_pointer : simpl never.

(** ** Relationship queries *)

(** [Parser.get_parents] *)
Definition get_parents (individual : option eid) : M (option eid * option eid) :=
  h <- get_heap;;
  match as_individual h individual with
  | None => raise NotAnActualIndividualError
  | Some ind =>
      if negb (is_child_in_a_family h ind) then ret (None, None)
      else
        family <- get_element_by_pointer (get_parent_family_pointer h ind);;
        match as_family h family with
        | None => ret (None, None)
        | Some fam =>
            husband <- (if has_husband h fam
                        then get_element_by_pointer (get_husband_pointer h fam)
                        else ret None);;
            wife <- (if has_wife h fam
                     then get_element_by_pointer (get_wife_pointer h fam)
                     else ret None);;
            ret (husband, wife)
        end
  end.

(** [Parser.get_families] *)
Definition get_families (individual : option eid) (family_type : str)
  : M (list eid) :=
  h <- get_heap;;
  match as_individual h individual with
  | None => raise NotAnActualIndividualError
  | Some ind =>
      element_dictionary <- get_element_dictionary;;
      ret (foldl (λ families child_element,
                    if bool_decide (get_tag child_element = family_type) then
                      match element_dictionary !! get_value child_element with
                      | Some family => families ++ [family]
                      | None => families
                      end
                    else families) [] (child_elements h ind))
  end.

(** The innermost loop of [get_marriages]: [date] and [place] are
    assigned at every child that carries the tag. *)
Definition marriage_date_place (h : list Element) (family_data : Element)
  : str * str :=
  foldl (λ dp marriage_data,
           let date := if bool_decide (get_tag marriage_data = GEDCOM_TAG_DATE)
                       then get_value marriage_data else dp.1 in
           let place := if bool_decide (get_tag marriage_data = GEDCOM_TAG_PLACE)
                        then get_value marriage_data else dp.2 in
           (date, place))
        ([], []) (child_elements h family_data).

(** [Parser.get_marriages] *)
Definition get_marriages (individual : option eid) : M (list (str * str)) :=
  h <- get_heap;;
  match as_individual h individual with
  | None => raise NotAnActualIndividualError
  | Some _ =>
      families <- get_families individual GEDCOM_TAG_FAMILY_SPOUSE;;
      ret (foldl (λ marriages family,
                    foldl (λ marriages family_data,
                             if bool_decide (get_tag family_data = GEDCOM_TAG_MARRIAGE)
                             then marriages ++ [marriage_date_place h family_data]
                             else marriages)
                          marriages
                          (from_option (child_elements h) [] (h !! family)))
                 [] families)
  end.

(** [for x in xs: acc = acc + f(x)], where [f] may raise. *)
Fixpoint extend_each {A B} (f : A → M (list B)) (xs : list A) (acc : list B)
  : M (list B) :=
  match xs with
  | [] => ret acc
  | x :: xs' => ys <- f x;; extend_each f xs' (acc ++ ys)
  end.

(** [for x in xs: r = f(x); if r is not None: return r], then [None]. *)
Fixpoint first_found {A B} (f : A → M (option B)) (xs : list A) : M (option B) :=
  match xs with
  | [] => ret None
  | x :: xs' =>
      r <- f x;;
      match r with
      | Some b => ret (Some b)
      | None => first_found f xs'
      end
  end.

(** [Parser.get_ancestors]; [depth] is the number of nested calls the
    interpreter still allows. *)
Fixpoint get_ancestors (depth : nat) (individual : option eid)
  : M (list (option eid)) :=
  match depth with
  | O => raise RecursionError
  | S depth' =>
      h <- get_heap;;
      match as_individual h individual with
      | None => raise NotAnActualIndividualError
      | Some _ =>
          parents <- get_parents individual;;
          extend_each (get_ancestors depth') [parents.1; parents.2]
                      [parents.1; parents.2]
      end
  end.

(** [Parser.find_path_to_ancestor] *)
Fixpoint find_path_to_ancestor (depth : nat) (descendant ancestor : option eid)
    (path : option (list (option eid))) : M (option (list (option eid))) :=
  match depth with
  | O => raise RecursionError
  | S depth' =>
      h <- get_heap;;
      match as_individual h descendant, as_individual h ancestor with
      | Some _, Some anc =>
          let path := match path with
                      | None | Some [] => [descendant]
                      | Some p => p
                      end in
          match (i ← default None (last path); h !! i) with
          | None => raise AttributeError
          | Some e =>
              if bool_decide (get_pointer e = get_pointer anc) then
                ret (Some path)
              else
                parents <- get_parents descendant;;
                first_found
                  (λ parent, find_path_to_ancestor depth' parent ancestor
                               (Some (path ++ [parent])))
                  [parents.1; parents.2]
          end
      | _, _ => raise NotAnActualIndividualError
      end
  end.

(** ** The remaining queries and the flat list *)

Definition GEDCOM_TAG_CHILD : str := py "CHIL".

(** Modelled from the spec: [FamilyElement.get_children_pointers]; a
    Family declares an ordered list of children pointers, the values of
    its child links in source order. *)
Definition get_children_pointers (h : list Element) (e : Element) : list str :=
  get_value <$> children_with_tag h e GEDCOM_TAG_CHILD.

#[global] Arguments get_children_pointers : simpl never.

(** The body of the inner loop of [get_children]: the element that the
    pointer resolves to, kept when it is an Individual. *)
Definition individual_child (h : list Element) (pointer : str) : M (list eid) :=
  child <- get_element_by_pointer pointer;;
  match child, as_individual h child with
  | Some c, Some _ => ret [c]
  | _, _ => ret []
  end.

(** [Parser.get_children].  [get_children_pointers] is a method of
    families only: on another element the call raises. *)
Definition get_children (individual : option eid) : M (list eid) :=
  h <- get_heap;;
  match as_individual h individual with
  | None => raise NotAnActualIndividualError
  | Some _ =>
      families <- get_families individual GEDCOM_TAG_FAMILY_SPOUSE;;
      extend_each
        (λ family,
           match as_family h (Some family) with
           | None => raise AttributeError
           | Some fam =>
               extend_each (individual_child h) (get_children_pointers h fam) []
           end)
        families []
  end.

(** [Parser.get_descendants] *)
Fixpoint get_descendants (depth : nat) (individual : option eid) : M (list eid) :=
  match depth with
  | O => raise RecursionError
  | S depth' =>
      h <- get_heap;;
      match as_individual h individual with
      | None => raise NotAnActualIndividualError
      | Some _ =>
          families <- get_families individual GEDCOM_TAG_FAMILY_SPOUSE;;
          extend_each
            (λ family,
               match as_family h (Some family) with
               | None => raise AttributeError
               | Some fam =>
                   extend_each
                     (λ pointer,
                        child <- get_element_by_pointer pointer;;
                        match child, as_individual h child with
                        | Some c, Some _ =>
                            below <- get_descendants depth' child;;
                            ret (c :: below)
                        | _, _ => ret []
                        end)
                     (get_children_pointers h fam) []
               end)
            families []
      end
  end.

(** [for x in xs: f(x)] *)
Fixpoint for_each {A} (f : A → M unit) (xs : list A) : M unit :=
  match xs with
  | [] => ret ()
  | x :: xs' => f x;;; for_each f xs'
  end.

(** [element_list.append(element)] on the list of the parser: the only
    caller of [__build_list] passes [self.__element_list]. *)
Definition append_element_list (element : eid) : M unit :=
  λ st, (Ok (), mkState (heap st) (element_list st ++ [element])
                  (element_dictionary st) (root_element st)).

(** [Parser.__build_list]; [depth] is the number of nested calls the
    interpreter still allows. *)
Fixpoint build_list (depth : nat) (element : eid) : M unit :=
  match depth with
  | O => raise RecursionError
  | S depth' =>
      append_element_list element;;;
      h <- get_heap;;
      e <- lift (deref h element);;
      for_each (build_list depth') (get_child_elements e)
  end.

(** [Parser.get_element_list]: built on first use, then cached. *)
Definition get_element_list (depth : nat) : M (list eid) :=
  λ st,
    ((if decide (element_list st = []) then
        records <- get_root_child_elements;;
        for_each (build_list depth) records
      else ret ());;;
     (λ st', (Ok (element_list st'), st'))) st.

(** * Definitions used by the statements

    The invariant of the tree builder, the attach step on the heap, the
    views of the pointer index and of the marriages that the theorems
    compare the code with, and the documents of the worked examples. *)

(** The nodes of the tree below [r]. *)
Inductive in_tree (h : list Element) (r : eid) : eid → Prop :=
| in_tree_root : in_tree h r r
| in_tree_child p e c :
    in_tree h r p → h !! p = Some e → c ∈ get_child_elements e →
    in_tree h r c.

(** The property of the specification: the root is at level -1, and along
    every parent-child edge of the tree the level grows by one. *)
Definition levels_ok (h : list Element) (r : eid) : Prop :=
  (∃ root, h !! r = Some root ∧ get_level root = -1
           ∧ get_parent_element root = None) ∧
  ∀ p parent c,
    in_tree h r p → h !! p = Some parent → c ∈ get_child_elements parent →
    ∃ child, h !! c = Some child ∧ get_parent_element child = Some p
             ∧ get_level child = get_level parent + 1.

(** The invariant of the tree builder.  The objects of the current
    document are the root [r] and everything allocated after it; each of
    them but the root has its parent among the older ones, one level up. *)
Record wf_tree (h : list Element) (r : eid) : Prop := {
  wf_root :
    ∃ root, h !! r = Some root ∧ get_level root = -1
            ∧ get_parent_element root = None ∧ get_tag root = py "ROOT";
  wf_node :
    ∀ i e, (r < i)%nat → h !! i = Some e →
      0 ≤ get_level e ∧
      ∃ p pe, get_parent_element e = Some p ∧ (r ≤ p < i)%nat
              ∧ h !! p = Some pe ∧ get_level e = get_level pe + 1;
  wf_children :
    ∀ i e c, (r ≤ i)%nat → h !! i = Some e → c ∈ get_child_elements e →
      (i < c)%nat ∧ ∃ ce, h !! c = Some ce ∧ get_parent_element ce = Some i
}.

(** The attach step on the heap: the new object is allocated at the end,
    appended to the children of [p] and given [p] as parent. *)
Definition attach (h : list Element) (p : eid) (pe new : Element)
  : list Element :=
  <[length h := with_parent new p]>
    (<[p := with_child pe (length h)]> (h ++ [new])).

Definition new_element (level : Z) (pointer : option str) (tag value crlf : str)
  : Element := mkElement level pointer tag value crlf [] None.

(** The parser after [invalidate_cache] and the allocation of the new
    root: the caches are empty and the root has no children. *)
Definition fresh_document (st : State) : State :=
  mkState (heap st ++ [RootElement]) [] ∅ (length (heap st)).

(** The dictionary that [get_element_dictionary] returns: the cached one,
    unless it is empty. *)
Definition dictionary_of (st : State) : gmap (list N) eid :=
  if decide (element_dictionary st = ∅) then
    build_dictionary (heap st)
      (from_option get_child_elements [] (heap st !! root_element st))
  else element_dictionary st.

(** The parser once the dictionary is cached. *)
Definition cached (st : State) : State :=
  mkState (heap st) (element_list st) (dictionary_of st) (root_element st).

(** The family where the individual is a child, when the link is there
    and resolves to a Family. *)
Definition parent_family (st : State) (ind : Element) : option Element :=
  if is_child_in_a_family (heap st) ind then
    as_family (heap st)
      (dictionary_of st !! get_parent_family_pointer (heap st) ind)
  else None.

(** The value of the last child of [e] that carries the tag; the empty
    string when there is none. *)
Definition last_value_with_tag (h : list Element) (e : Element) (tag : str)
  : str :=
  from_option get_value [] (last (children_with_tag h e tag)).

(** The families that the spouse links of an individual resolve to, in
    source order; a link whose pointer is not in the index is skipped. *)
Definition spouse_families (st : State) (ind : Element) : list eid :=
  omap (λ c, dictionary_of st !! get_value c)
       (children_with_tag (heap st) ind GEDCOM_TAG_FAMILY_SPOUSE).

(** The marriage events among the direct children of a family. *)
Definition marriage_events (h : list Element) (family : eid) : list Element :=
  match h !! family with
  | Some fam => children_with_tag h fam GEDCOM_TAG_MARRIAGE
  | None => []
  end.

Definition marriages_of (st : State) (ind : Element) : list (str * str) :=
  family ← spouse_families st ind;
  (λ m, (last_value_with_tag (heap st) m GEDCOM_TAG_DATE,
         last_value_with_tag (heap st) m GEDCOM_TAG_PLACE))
    <$> marriage_events (heap st) family.

(** The family of the specification: John (address 2) and Jane (5), their
    family (8) and their child Jim (12), read in lenient mode. *)
Definition example_document : str := py
"0 @I1@ INDI
1 NAME John /Doe/
1 FAMS @F1@
0 @I2@ INDI
1 NAME Jane /Roe/
1 FAMS @F1@
0 @F1@ FAM
1 HUSB @I1@
1 WIFE @I2@
1 CHIL @I3@
0 @I3@ INDI
1 NAME Jim /Doe/
1 FAMC @F1@
".

Definition example_state : State :=
  (parse example_document false Parser__init__).2.

(** A marriage event (address 6) with two dates. *)
Definition marriage_document : str := py
"0 @I1@ INDI
1 FAMS @F1@
0 @F1@ FAM
1 HUSB @I1@
1 MARR
2 DATE 1 JAN 1900
2 PLAC Paris
2 DATE 2 FEB 1901
".

Definition marriage_state : State :=
  (parse marriage_document false Parser__init__).2.

(** A header (address 2) with one line below it (address 3). *)
Definition header_state : State :=
  (parse (py "0 HEAD
1 SOUR X") false Parser__init__).2.

(** Four lines with their carriage returns; the third jumps from level 1
    to level 3. *)
Definition jump_document : str :=
  py "0 HEAD" ++ [CR; LF] ++ py "1 SOUR X" ++ [CR; LF]
  ++ py "3 VERS 5" ++ [CR; LF] ++ py "0 TRLR" ++ [CR; LF].

(** A person (address 2) recorded as a child of their own family
    (address 4). *)
Definition cycle_document : str := py
"0 @I1@ INDI
1 FAMS @F1@
0 @F1@ FAM
1 HUSB @I1@
1 CHIL @I1@
".

Definition cycle_state : State :=
  (parse cycle_document false Parser__init__).2.

(** The top-level records, among [records], that declare the pointer. *)
Definition records_with_pointer (h : list Element) (records : list eid)
    (pointer : str) : list eid :=
  filter (λ i, (get_pointer <$> h !! i) = Some (Some pointer)) records.

(** The pair that [get_parents] computes for an Individual. *)
Definition parents_of (st : State) (ind : Element) : option eid * option eid :=
  if is_child_in_a_family (heap st) ind then
    match as_family (heap st)
            (dictionary_of st !! get_parent_family_pointer (heap st) ind) with
    | None => (None, None)
    | Some fam =>
        (if has_husband (heap st) fam
         then dictionary_of st !! get_husband_pointer (heap st) fam else None,
         if has_wife (heap st) fam
         then dictionary_of st !! get_wife_pointer (heap st) fam else None)
    end
  else (None, None).

(** A line of fathers: every element but the last is an Individual whose
    father slot is the next element. *)
Inductive paternal_line (st : State) : eid → list (option eid) → Prop :=
| paternal_line_end i : paternal_line st i [Some i]
| paternal_line_step i ind f rest :
    as_individual (heap st) (Some i) = Some ind →
    (parents_of st ind).1 = Some f →
    paternal_line st f rest →
    paternal_line st i (Some i :: rest).

(** The children of an Individual: for every spouse family, in order, the
    children pointers that resolve to an Individual. *)
Definition children_in (st : State) (family : eid) : list eid :=
  match as_family (heap st) (Some family) with
  | Some fam =>
      filter (λ c, is_Some (as_individual (heap st) (Some c)))
             (omap (λ pointer, dictionary_of st !! pointer)
                   (get_children_pointers (heap st) fam))
  | None => []
  end.

Definition children_of (st : State) (ind : Element) : list eid :=
  family ← spouse_families st ind; children_in st family.

(** The addresses [i], ..., [j - 1] are the element [i] followed by the
    subtrees of its children, one after the other. *)
Inductive tree_at (h : list Element) : eid → nat → Prop :=
| tree_at_node i e j :
    h !! i = Some e → forest_at h (get_child_elements e) (S i) j →
    tree_at h i j
with forest_at (h : list Element) : list eid → nat → nat → Prop :=
| forest_at_nil i : forest_at h [] i i
| forest_at_cons c cs j k :
    tree_at h c j → forest_at h cs j k → forest_at h (c :: cs) c k.

Scheme tree_at_mut := Minimality for tree_at Sort Prop
  with forest_at_mut := Minimality for forest_at Sort Prop.
Combined Scheme tree_forest_ind from tree_at_mut, forest_at_mut.

(** [x] is on the rightmost branch of the subtree of [i], which ends at
    the end [n] of the heap. *)
Inductive rightmost (h : list Element) (n : nat) : eid → eid → Prop :=
| rightmost_here i : tree_at h i n → rightmost h n i i
| rightmost_step i e cs c x :
    h !! i = Some e → get_child_elements e = cs ++ [c] →
    forest_at h cs (S i) c → rightmost h n c x →
    rightmost h n i x.

(** The parser with the flat list set. *)
Definition set_element_list (st : State) (l : list eid) : State :=
  mkState (heap st) l (element_dictionary st) (root_element st).

(** A line of the grammar, put together from its fields: level, optional
    pointer identifier, tag, optional value, terminator. *)
Definition pointer_field (pointer : option str) : str :=
  match pointer with
  | Some id => 64%N :: id ++ [64%N; SPACE]
  | None => []
  end.

Definition value_field (value : option str) : str :=
  match value with
  | Some v => SPACE :: v
  | None => []
  end.

Definition gedcom_line (lvl : str) (pointer : option str) (tag : str)
    (value : option str) (eol : str) : str :=
  lvl ++ SPACE :: pointer_field pointer ++ tag ++ value_field value ++ eol.

(** The shape that the grammar asks of the fields. *)
Definition level_digits (lvl : str) : Prop :=
  lvl = [48%N] ∨
  ∃ d ds, lvl = d :: ds ∧ is_nonzero_digit d = true
          ∧ Forall (λ x, is_digit x = true) ds.

Definition pointer_ok (pointer : option str) : Prop :=
  match pointer with
  | Some id => id ≠ [] ∧ Forall (λ x, is_not_at x = true) id
  | None => True
  end.

Definition tag_ok (tag : str) : Prop :=
  tag ≠ [] ∧ Forall (λ x, is_tag_char x = true) tag.

Definition value_ok (value : option str) : Prop :=
  match value with
  | Some v => Forall (λ x, is_eol x = false) v
  | None => True
  end.

(** A line of fathers from [i] whose last element is the first one that
    carries the pointer [pointer]; all its elements are Individuals. *)
Inductive reaches (st : State) (pointer : option str)
  : eid → list (option eid) → Prop :=
| reaches_end i ind :
    as_individual (heap st) (Some i) = Some ind →
    get_pointer ind = pointer →
    reaches st pointer i [Some i]
| reaches_step i ind f rest :
    as_individual (heap st) (Some i) = Some ind →
    get_pointer ind ≠ pointer →
    (parents_of st ind).1 = Some f →
    reaches st pointer f rest →
    reaches st pointer i (Some i :: rest).

(** The candidate that the matcher prefers. *)
Definition first_candidate (r : regex) (s : str) (c : candidate) : Prop :=
  ∃ l, run r s = c :: l.

(** The text after the terminator does not start with what would extend
    the terminator: a terminator of two characters is complete, one of a
    single character is followed by nothing or by another character. *)
Definition terminator_ok (eol rest : str) : Prop :=
  (∃ c1 c2, eol = [c1; c2] ∧ is_eol c1 = true ∧ is_eol c2 = true) ∨
  (∃ c1, eol = [c1] ∧ is_eol c1 = true ∧
         ∀ x s', rest = x :: s' → is_eol x = false).

(** The pointer as [parse_line] stores it: without the space that
    follows it in the line; the empty string when there is none. *)
Definition stored_pointer (pointer : option str) : str :=
  match pointer with
  | Some id => 64%N :: id ++ [64%N]
  | None => []
  end.

(** The states that a sequence of queries goes through: the parser as it
    is, or with the dictionary cached. *)
Definition same_view (st st1 : State) : Prop := st1 = st ∨ st1 = cached st.

(** * Properties *)

(** ** The patterns on sample lines *)

Example gedcom_line_groups :
  re_match gedcom_line_regex (py "1 @I1@ NAME John  Doe " ++ [CR; LF]) =
  Some [py "1"; py "@I1@ "; py "NAME"; py " John  Doe "; [CR; LF]].
Proof. vm_compute. reflexivity. Qed.

Example gedcom_line_no_terminator :
  re_match gedcom_line_regex (py "1 NAME John") = None.
Proof. vm_compute. reflexivity. Qed.

Example last_line_groups :
  re_match last_line_regex (py "12 NAME John") =
  Some [py "12"; []; py "NAME"; py " John"].
Proof. vm_compute. reflexivity. Qed.

Example leading_zero_rejected :
  re_match last_line_regex (py "01 NAME John") = None.
Proof. vm_compute. reflexivity. Qed.


(** ** The matcher *)

Section matcher_facts.

Implicit Types (r : regex) (s m : str) (c : candidate) (p : char → bool).

Lemma elem_of_star p s m s' :
  (m, s') ∈ star p s → s = m ++ s' ∧ Forall (λ x, p x = true) m.
Proof.
  revert m s'. induction s as [|x s IH]; intros m s'; simpl.
  - rewrite list_elem_of_singleton. intros [= -> ->]. by split.
  - destruct (p x) eqn:Hp.
    + rewrite elem_of_app, list_elem_of_fmap, list_elem_of_singleton.
      intros [([m0 r0] & [= -> ->] & Hin) | [= -> ->]]; [|by split].
      destruct (IH _ _ Hin) as [-> Hall]. simpl. split; [done|].
      by constructor.
    + rewrite list_elem_of_singleton. intros [= -> ->]. by split.
Qed.

Lemma elem_of_run_Seq r1 r2 s c :
  c ∈ run (Seq r1 r2) s ↔
  ∃ c1 c2, c1 ∈ run r1 s ∧ c2 ∈ run r2 c1.2 ∧
           c = (c1.1.1 ++ c2.1.1, c1.1.2 ++ c2.1.2, c2.2).
Proof.
  simpl. rewrite list_elem_of_bind. split.
  - intros (c1 & Hc & H1). apply list_elem_of_bind in Hc as (c2 & Hc & H2).
    apply list_elem_of_singleton in Hc. eauto.
  - intros (c1 & c2 & H1 & H2 & ->). exists c1. split; [|done].
    apply list_elem_of_bind. exists c2. split; [|done].
    by apply list_elem_of_singleton.
Qed.

Lemma elem_of_run_Group r s c :
  c ∈ run (Group r) s ↔
  ∃ c0, c0 ∈ run r s ∧ c = (c0.1.1, c0.1.1 :: c0.1.2, c0.2).
Proof.
  simpl. rewrite list_elem_of_fmap. split.
  - intros (c0 & -> & H0). eauto.
  - intros (c0 & H0 & ->). eauto.
Qed.

Lemma elem_of_run_Class p s c :
  c ∈ run (Class p) s ↔ ∃ x s', s = x :: s' ∧ p x = true ∧ c = ([x], [], s').
Proof.
  simpl. destruct s as [|x s'].
  - rewrite elem_of_nil. split; [done|]. by intros (? & ? & [=] & _).
  - destruct (p x) eqn:Hp.
    + rewrite list_elem_of_singleton. split.
      * intros ->. eauto.
      * by intros (? & ? & [= <- <-] & _ & ->).
    + rewrite elem_of_nil. split; [done|].
      intros (? & ? & [= <- <-] & Hp' & _). congruence.
Qed.

Lemma elem_of_run_Lit (a : char) s c :
  c ∈ run (Lit a) s ↔ ∃ s', s = a :: s' ∧ c = ([a], [], s').
Proof.
  simpl. destruct s as [|x s'].
  - rewrite elem_of_nil. split; [done|]. by intros (? & [=] & _).
  - destruct (N.eqb_spec x a) as [->|Hne].
    + rewrite list_elem_of_singleton. split.
      * intros ->. eauto.
      * by intros (? & [= <-] & ->).
    + rewrite elem_of_nil. split; [done|].
      intros (? & [= -> <-] & _). congruence.
Qed.

Lemma elem_of_run_Star p s c :
  c ∈ run (Star p) s →
  ∃ m, c = (m, [], c.2) ∧ s = m ++ c.2 ∧ Forall (λ x, p x = true) m.
Proof.
  simpl. rewrite list_elem_of_fmap. intros ([m s'] & -> & Hin).
  apply elem_of_star in Hin as [-> Hall]. simpl. eauto.
Qed.

(** Whatever a pattern consumes is a prefix of the subject. *)
Lemma run_consumes r : ∀ s c, c ∈ run r s → s = c.1.1 ++ c.2.
Proof.
  induction r as [a|p| |r1 IH1 r2 IH2|r1 IH1 r2 IH2|p|r IH]; intros s c.
  - rewrite elem_of_run_Lit. by intros (s' & -> & ->).
  - rewrite elem_of_run_Class. by intros (x & s' & -> & _ & ->).
  - simpl. rewrite list_elem_of_singleton. by intros ->.
  - rewrite elem_of_run_Seq. intros (c1 & c2 & H1 & H2 & ->). simpl.
    rewrite (IH1 _ _ H1) at 1. rewrite (IH2 _ _ H2) at 1.
    by rewrite (assoc_L (++)).
  - simpl. rewrite elem_of_app. intros [?|?]; eauto.
  - intros Hc. by apply elem_of_run_Star in Hc as (m & -> & -> & _).
  - rewrite elem_of_run_Group. intros (c0 & H0 & ->). simpl. eauto.
Qed.

Lemma re_match_Some r s g :
  re_match r s = Some g → ∃ c, c ∈ run r s ∧ c.1.2 = g.
Proof.
  unfold re_match. destruct (run r s) as [|c l] eqn:Hrun; [done|].
  simpl. intros [= <-]. exists c. split; [|done]. by left.
Qed.

Lemma re_match_None r s : run r s = [] → re_match r s = None.
Proof. unfold re_match. by intros ->. Qed.

End matcher_facts.

(** The end of line of the primary grammar starts with a carriage return
    or a line feed of the subject. *)
Lemma elem_of_run_end_of_line s c :
  c ∈ run end_of_line_regex s →
  ∃ x s', s = x :: s' ∧ is_eol x = true ∧ c.1.2 = [c.1.1] ∧
          Forall (λ y, is_eol y = true) c.1.1 ∧ c.1.1 ≠ [].
Proof.
  unfold end_of_line_regex, OneOrTwo.
  rewrite elem_of_run_Group. intros (c0 & H0 & ->).
  apply elem_of_run_Seq in H0 as (c1 & c2 & H1 & H2 & ->).
  apply elem_of_run_Class in H1 as (x & s' & -> & Hx & ->).
  exists x, s'. simpl in H2. apply elem_of_app in H2 as [H2|H2].
  - apply elem_of_run_Class in H2 as (y & s'' & _ & Hy & ->). simpl.
    split_and!; [done..| |done]. by repeat constructor.
  - apply list_elem_of_singleton in H2 as ->. simpl.
    split_and!; [done..| |done]. by repeat constructor.
Qed.

(** A line that the primary grammar accepts contains its terminator. *)
Lemma gedcom_line_has_eol line g :
  re_match gedcom_line_regex line = Some g → ∃ x, x ∈ line ∧ is_eol x = true.
Proof.
  intros (c & Hc & _)%re_match_Some. unfold gedcom_line_regex in Hc.
  apply elem_of_run_Seq in Hc as (c1 & c' & H1 & Hc & _).
  apply elem_of_run_Seq in Hc as (c2 & c'' & H2 & Hc & ->).
  apply elem_of_run_Seq in Hc as (c3 & c''' & H3 & Hc & ->).
  apply elem_of_run_Seq in Hc as (c4 & c5 & H4 & H5 & ->).
  apply elem_of_run_end_of_line in H5 as (x & s' & Hs & Hx & _).
  exists x. split; [|done].
  apply run_consumes in H1, H2, H3, H4.
  rewrite H1, H2, H3, H4, Hs. set_solver.
Qed.

(** ** String methods *)

Lemma elem_of_lstrip p (s : str) x : x ∈ PyStr.lstrip p s → x ∈ s.
Proof.
  induction s as [|c s IH]; simpl; [done|].
  destruct (p c); [|done]. intros ?%IH. by right.
Qed.

Lemma elem_of_strip (s : str) x : x ∈ PyStr.strip s → x ∈ s.
Proof.
  unfold PyStr.strip, PyStr.rstrip. rewrite elem_of_reverse.
  intros H%elem_of_lstrip. rewrite elem_of_reverse in H.
  exact (elem_of_lstrip _ _ _ H).
Qed.

(** The first piece of a split holds no separator and only characters of
    the string. *)
Lemma split_first sep (s : str) :
  ∃ l ls, PyStr.split sep s = l :: ls ∧ (sep ∉ l) ∧ ∀ x, x ∈ l → x ∈ s.
Proof.
  induction s as [|c s (l & ls & Heq & Hsep & Hsub)]; simpl.
  - exists [], []. split_and!; [done| |done]. by intros ?%elem_of_nil.
  - destruct (N.eqb_spec c sep) as [->|Hne].
    + eexists [], _. split_and!; [done| |].
      * by intros ?%elem_of_nil.
      * by intros x ?%elem_of_nil.
    + rewrite Heq. exists (c :: l), ls. split_and!; [done| |].
      * rewrite elem_of_cons. intros [?|?]; [congruence|done].
      * intros x [->|?]%elem_of_cons; [by left|right; eauto].
Qed.

(** ** The monad: evaluation of one step *)

Lemma bind_Ok {A B} (m : M A) (k : A → M B) st a st' :
  m st = (Ok a, st') → bind m k st = k a st'.
Proof. unfold bind. by intros ->. Qed.

Lemma bind_Raise {A B} (m : M A) (k : A → M B) st e st' :
  m st = (Raise e, st') → bind m k st = (Raise e, st').
Proof. unfold bind. by intros ->. Qed.

Lemma bind_inv_Ok {A B} (m : M A) (k : A → M B) st b st2 :
  bind m k st = (Ok b, st2) →
  ∃ a st1, m st = (Ok a, st1) ∧ k a st1 = (Ok b, st2).
Proof.
  unfold bind. destruct (m st) as [[a|e] st1]; [eauto|done].
Qed.

Ltac step_m :=
  unfold ret, raise, lift, get_heap, get_root_element; simpl.

(** ** C1: a jump of more than one level *)

(** C1. In strict and in lenient mode, whenever the fields read from a
    line (by the primary grammar or after a quirk recovery) carry a level
    greater than the previous element's level plus one, [parse_line] raises
    [GedcomFormatViolationError] with the line number, and builds nothing.
    The fields are there once [int] has converted the level: a level of
    more digits than [int] converts raises [ValueError] before the
    comparison is made. *)
Theorem parse_line_level_jump (line_number : nat) (line : str)
    (last_element : eid) (strict : bool) (st : State) (last : Element)
    (level : Z) (pointer : option str) (tag value crlf : str) :
  heap st !! last_element = Some last →
  line_fields line_number line last strict
    = Ok (level, pointer, tag, value, crlf) →
  level > get_level last + 1 →
  parse_line line_number line last_element strict st
    = (Raise (GedcomFormatViolationError line_number None), st).
Proof.
  intros Hlast Hfields Hjump.
  unfold parse_line, bind, deref. step_m.
  rewrite Hlast, Hfields.
  destruct (Z.gtb_spec level (get_level last + 1)); [done|lia].
Qed.

(** ** C10: strict parsing of a string with bare line feeds *)

Lemma is_eol_spec x : is_eol x = true ↔ x = CR ∨ x = LF.
Proof.
  unfold is_eol. rewrite orb_true_iff, !N.eqb_eq. tauto.
Qed.

Lemma parse_line_strict_violation line_number line last_element st last :
  heap st !! last_element = Some last →
  re_match gedcom_line_regex line = None →
  parse_line line_number line last_element true st
    = (Raise (GedcomFormatViolationError line_number (Some line)), st).
Proof.
  intros Hlast Hnone. unfold parse_line, bind, deref, line_fields. step_m.
  by rewrite Hlast, Hnone.
Qed.

(** C10. When the string holds no carriage return, [parse] in strict mode
    raises [GedcomFormatViolationError] at line 1, whatever the lines are:
    the pieces of [split] have lost the line feed that the primary grammar
    asks for.  The parser is left with a fresh, empty root. *)
Theorem parse_strict_bare_line_feed (string : str) (st : State) :
  CR ∉ string →
  ∃ line rest,
    PyStr.split LF (PyStr.strip string) = line :: rest ∧
    parse string true st =
      (Raise (GedcomFormatViolationError 1 (Some line)),
       mkState (heap st ++ [RootElement]) [] ∅ (length (heap st))).
Proof.
  intros Hcr.
  destruct (split_first LF (PyStr.strip string)) as (line & rest & Heq & Hlf & Hsub).
  exists line, rest. split; [done|].
  assert (re_match gedcom_line_regex line = None) as Hnone.
  { destruct (re_match gedcom_line_regex line) as [g|] eqn:Hm; [|done].
    apply gedcom_line_has_eol in Hm as (x & Hx & [->| ->]%is_eol_spec).
    - destruct Hcr. by apply elem_of_strip, Hsub.
    - done. }
  unfold parse. unfold bind at 1. simpl. unfold bind at 1. simpl.
  unfold bind at 1. simpl. rewrite Heq. simpl.
  erewrite bind_Raise; [done|]. erewrite bind_Raise; [done|].
  apply parse_line_strict_violation with RootElement; [|done].
  simpl. by apply list_lookup_middle.
Qed.

(** ** C9: the levels of the tree *)

Lemma in_tree_ge h r i : wf_tree h r → in_tree h r i → (r ≤ i)%nat.
Proof.
  intros Hwf. induction 1 as [|p e c _ IH He Hc]; [done|].
  destruct (wf_children _ _ Hwf p e c IH He Hc). lia.
Qed.

Lemma wf_tree_levels_ok h r : wf_tree h r → levels_ok h r.
Proof.
  intros Hwf. split.
  - destruct (wf_root _ _ Hwf) as (root & ? & ? & ? & _). eauto.
  - intros p parent c Hp Hparent Hc.
    pose proof (in_tree_ge _ _ _ Hwf Hp) as Hge.
    destruct (wf_children _ _ Hwf p parent c Hge Hparent Hc) as (Hlt & ce & Hce & Hpar).
    exists ce. split_and!; [done..|].
    destruct (wf_node _ _ Hwf c ce) as (_ & p' & pe & Hp' & _ & Hpe & Hlev);
      [lia|done|].
    congruence.
Qed.

Lemma walk_up_unfold fuel h p level :
  walk_up fuel h (Some p) level =
  match h !! p with
  | None => Raise AttributeError
  | Some e =>
      if get_level e >? level - 1 then
        match fuel with
        | O => Raise Nontermination
        | S fuel' => walk_up fuel' h (get_parent_element e) level
        end
      else Ok p
  end.
Proof. by destruct fuel. Qed.

(** In a well-formed tree the walk towards the root stops, at the ancestor
    of the wanted level; the heap may hold younger objects. *)
Lemma walk_up_ok h r k : wf_tree h r →
  ∀ i e t fuel,
    (r ≤ i)%nat → h !! i = Some e → -1 ≤ t ≤ get_level e → (i - r ≤ fuel)%nat →
    ∃ p pe, walk_up fuel (h ++ k) (Some i) (t + 1) = Ok p
            ∧ (r ≤ p ≤ i)%nat ∧ h !! p = Some pe ∧ get_level pe = t.
Proof.
  intros Hwf i. induction i as [i IH] using lt_wf_ind.
  intros e t fuel Hri He Ht Hfuel.
  rewrite walk_up_unfold, (lookup_app_l_Some _ _ _ _ He).
  destruct (Z.gtb_spec (get_level e) (t + 1 - 1)) as [Hgt|Hle].
  - assert (r < i)%nat as Hlt.
    { destruct (decide (i = r)) as [->|]; [|lia].
      destruct (wf_root _ _ Hwf) as (root & Hroot & Hlev & _). 
      rewrite He in Hroot. injection Hroot as ->. lia. }
    destruct (wf_node _ _ Hwf i e Hlt He) as (_ & p & pe & Hp & Hrange & Hpe & Hlev).
    destruct fuel as [|fuel]; [lia|]. rewrite Hp.
    destruct (IH p ltac:(lia) pe t fuel) as (q & qe & Hwalk & ? & ? & ?);
      [lia|done|lia|lia|].
    exists q, qe. split_and!; [done|lia|lia|done..].
  - exists i, e. split_and!; [done|lia|lia|done|lia].
Qed.

Lemma lookup_attach h p pe new i : (p < length h)%nat →
  attach h p pe new !! i =
  if decide (i = length h) then Some (with_parent new p)
  else if decide (i = p) then Some (with_child pe (length h))
  else h !! i.
Proof.
  intros Hp. unfold attach. destruct (decide (i = length h)) as [->|Hi].
  - apply list_lookup_insert_eq. rewrite length_insert, length_app. simpl. lia.
  - rewrite list_lookup_insert_ne by done.
    destruct (decide (i = p)) as [->|Hip].
    + apply list_lookup_insert_eq. rewrite length_app. lia.
    + rewrite list_lookup_insert_ne by done.
      destruct (decide (i < length h)%nat).
      * by apply lookup_app_l.
      * rewrite !lookup_ge_None_2; [done|lia|rewrite length_app; simpl; lia].
Qed.

Lemma length_attach h p pe new : length (attach h p pe new) = S (length h).
Proof. unfold attach. rewrite !length_insert, length_app. simpl. lia. Qed.

Lemma attach_wf h r p pe new :
  wf_tree h r → (r ≤ p)%nat → h !! p = Some pe →
  get_level new = get_level pe + 1 → 0 ≤ get_level new →
  get_child_elements new = [] →
  wf_tree (attach h p pe new) r.
Proof.
  intros Hwf Hrp Hpe Hlev Hnonneg Hnil.
  pose proof (lookup_lt_Some _ _ _ Hpe) as Hplt.
  assert (∀ i e, attach h p pe new !! i = Some e → i ≠ length h →
            ∃ e0, h !! i = Some e0 ∧ get_level e = get_level e0
                  ∧ get_parent_element e = get_parent_element e0
                  ∧ get_tag e = get_tag e0
                  ∧ (get_child_elements e = get_child_elements e0
                     ∨ i = p ∧ get_child_elements e
                               = get_child_elements e0 ++ [length h]))
    as Hold.
  { intros i e. rewrite lookup_attach by done.
    destruct (decide (i = length h)); [done|].
    destruct (decide (i = p)) as [->|].
    - intros [= <-] _. exists pe. simpl. split_and!; eauto.
    - intros He _. exists e. split_and!; eauto. }
  assert (∀ i e0, h !! i = Some e0 →
            ∃ e, attach h p pe new !! i = Some e
                 ∧ get_level e = get_level e0
                 ∧ get_parent_element e = get_parent_element e0) as Hkeep.
  { intros i e0 He0. pose proof (lookup_lt_Some _ _ _ He0).
    rewrite lookup_attach by done.
    destruct (decide (i = length h)); [lia|].
    destruct (decide (i = p)) as [->|]; [|eauto].
    rewrite Hpe in He0. injection He0 as <-. eauto. }
  split.
  - destruct (wf_root _ _ Hwf) as (root & Hroot & ? & ? & ?).
    destruct (Hkeep _ _ Hroot) as (root' & Hroot' & ? & ?).
    destruct (Hold _ _ Hroot') as (e0 & He0 & ? & ? & ? & _).
    { apply lookup_lt_Some in Hroot. lia. }
    exists root'. split_and!; [done|congruence..].
  - intros i e Hri He.
    destruct (decide (i = length h)) as [->|Hi].
    + rewrite lookup_attach, decide_True in He by done.
      injection He as <-. simpl. split; [done|].
      destruct (Hkeep _ _ Hpe) as (pe' & Hpe' & Hl & _).
      exists p, pe'. split_and!; [done|lia|lia|done|congruence].
    + destruct (Hold _ _ He Hi) as (e0 & He0 & Hl0 & Hp0 & _).
      destruct (wf_node _ _ Hwf i e0 Hri He0) as (? & q & qe & Hq & ? & Hqe & ?).
      split; [lia|].
      destruct (Hkeep _ _ Hqe) as (qe' & Hqe' & Hl & _).
      exists q, qe'. split_and!; [congruence|lia|lia|done|congruence].
  - intros i e c Hri He Hc.
    destruct (decide (i = length h)) as [->|Hi].
    { rewrite lookup_attach, decide_True in He by done.
      injection He as <-. simpl in Hc. rewrite Hnil in Hc.
      by apply elem_of_nil in Hc. }
    destruct (Hold _ _ He Hi) as (e0 & He0 & _ & _ & _ & Hch).
    assert (c ∈ get_child_elements e0 ∨ i = p ∧ c = length h) as [Hc0 | [-> ->] ].
    { destruct Hch as [Heq | [-> Heq] ]; rewrite Heq in Hc; [by left|].
      apply elem_of_app in Hc as [?|Hc]; [by left|].
      apply list_elem_of_singleton in Hc as ->. by right. }
    + destruct (wf_children _ _ Hwf i e0 c Hri He0 Hc0) as (? & ce & Hce & Hpar).
      split; [done|].
      destruct (Hkeep _ _ Hce) as (ce' & Hce' & _ & ?).
      exists ce'. split; [done|congruence].
    + split; [done|]. rewrite lookup_attach, decide_True by done. eauto.
Qed.

Lemma int_nonneg s level : PyStr.int s = Some level → 0 ≤ level.
Proof.
  unfold PyStr.int, PyStr.decimal. case_decide; [done|].
  destruct (_ <=? _)%nat; [|done]. intros [= <-]. lia.
Qed.

(** The level read from a line is never negative: only the root, whose tag
    is neither continuation nor concatenation, is below level 0. *)
Lemma line_fields_level_nonneg line_number line last strict
    level pointer tag value crlf :
  0 ≤ get_level last ∨ get_level last = -1 ∧ get_tag last = py "ROOT" →
  line_fields line_number line last strict
    = Ok (level, pointer, tag, value, crlf) →
  0 ≤ level.
Proof.
  intros Hlast. unfold line_fields.
  destruct (re_match gedcom_line_regex line) as [g|].
  { destruct (PyStr.int (part g 0)) eqn:Hint; [|done].
    intros [= <- _ _ _ _]. by eapply int_nonneg. }
  destruct strict; [done|].
  destruct (re_match last_line_regex line) as [g|].
  { destruct (PyStr.int (part g 0)) eqn:Hint; [|done].
    intros [= <- _ _ _ _]. by eapply int_nonneg. }
  destruct (re_match cont_line_regex line); [|done].
  repeat case_bool_decide; simpl; intros [= <- _ _ _ _]; try lia.
  all: destruct Hlast as [?|[_ Htag]]; [done|]; rewrite Htag in *; done.
Qed.

(** What [parse_line] does to a well-formed tree once the fields are read
    and the level is accepted: it returns, and the new element hangs
    below the ancestor of the previous element one level up. *)
Lemma parse_line_attach line_number line last_element strict st last
    level pointer tag value crlf :
  wf_tree (heap st) (root_element st) →
  (root_element st ≤ last_element)%nat →
  heap st !! last_element = Some last →
  line_fields line_number line last strict
    = Ok (level, pointer, tag, value, crlf) →
  level ≤ get_level last + 1 →
  ∃ p pe,
    (root_element st ≤ p ≤ last_element)%nat ∧ heap st !! p = Some pe ∧
    get_level pe = level - 1 ∧
    (get_level last = level - 1 → p = last_element) ∧
    parse_line line_number line last_element strict st =
      (Ok (length (heap st)),
       mkState (attach (heap st) p pe (new_element level pointer tag value crlf))
               (element_list st) (element_dictionary st) (root_element st)).
Proof.
  intros Hwf Hrl Hlast Hfields Hle.
  assert (0 ≤ level) as Hnonneg.
  { eapply line_fields_level_nonneg; [|done].
    destruct (decide (last_element = root_element st)) as [->|].
    - destruct (wf_root _ _ Hwf) as (root & Hroot & ? & _ & ?).
      rewrite Hlast in Hroot. injection Hroot as ->. by right.
    - left. by destruct (wf_node _ _ Hwf last_element last ltac:(lia) Hlast). }
  destruct (walk_up_ok _ _ [new_element level pointer tag value crlf] Hwf
              last_element last (level - 1) (length (heap st ++ [new_element level pointer tag value crlf])))
    as (p & pe & Hwalk & Hrange & Hpe & Hlev); [done|done|lia| |].
  { rewrite length_app. simpl. apply lookup_lt_Some in Hlast. lia. }
  replace (level - 1 + 1) with level in Hwalk by lia.
  exists p, pe. split_and!; [lia|lia|done..| |].
  { intros Heq. rewrite walk_up_unfold in Hwalk.
    rewrite (lookup_app_l_Some _ _ _ _ Hlast) in Hwalk.
    destruct (Z.gtb_spec (get_level last) (level - 1)); [lia|congruence]. }
  unfold parse_line, bind, deref. step_m. rewrite Hlast, Hfields.
  destruct (Z.gtb_spec level (get_level last + 1)); [lia|].
  unfold create_element. simpl. fold (new_element level pointer tag value crlf).
  rewrite Hwalk. unfold add_child_element. simpl.
  pose proof (lookup_lt_Some _ _ _ Hpe) as Hplt.
  rewrite (lookup_app_l_Some _ _ _ _ Hpe).
  rewrite list_lookup_insert_ne by lia.
  rewrite list_lookup_middle by done. done.
Qed.

(** Conversely, a call that returns has read fields and accepted the
    level. *)
Lemma parse_line_Ok_inv line_number line last_element strict st element st' :
  parse_line line_number line last_element strict st = (Ok element, st') →
  ∃ last level pointer tag value crlf,
    heap st !! last_element = Some last ∧
    line_fields line_number line last strict
      = Ok (level, pointer, tag, value, crlf) ∧
    level ≤ get_level last + 1.
Proof.
  unfold parse_line, bind, deref. step_m.
  destruct (heap st !! last_element) as [last|] eqn:Hlast; [|done].
  destruct (line_fields line_number line last strict)
    as [[[[[level pointer] tag] value] crlf]|] eqn:Hfields; [|done].
  destruct (Z.gtb_spec level (get_level last + 1)); [done|].
  intros _. exists last, level, pointer, tag, value, crlf. split_and!; [done..|lia].
Qed.

(** One accepted line keeps the tree well formed. *)
Lemma parse_line_wf line_number line last_element strict st element st' :
  wf_tree (heap st) (root_element st) →
  (root_element st ≤ last_element)%nat →
  parse_line line_number line last_element strict st = (Ok element, st') →
  wf_tree (heap st') (root_element st') ∧ (root_element st' ≤ element)%nat.
Proof.
  intros Hwf Hrl Hok.
  destruct (parse_line_Ok_inv _ _ _ _ _ _ _ Hok)
    as (last & level & pointer & tag & value & crlf & Hlast & Hfields & Hle).
  destruct (parse_line_attach _ _ _ _ _ _ _ _ _ _ _ Hwf Hrl Hlast Hfields Hle)
    as (p & pe & Hrange & Hpe & Hlev & _ & Heq).
  rewrite Heq in Hok. injection Hok as <- <-. simpl. split.
  - apply attach_wf; simpl; [done|lia|done|lia| |done].
    destruct (decide (p = root_element st)) as [->|].
    + destruct (wf_root _ _ Hwf) as (root & Hroot & ? & _).
      rewrite Hpe in Hroot. injection Hroot as ->. lia.
    + destruct (wf_node _ _ Hwf p pe ltac:(lia) Hpe). lia.
  - apply lookup_lt_Some in Hlast. lia.
Qed.

Lemma parse_lines_wf lines : ∀ line_number last_element strict st element st',
  wf_tree (heap st) (root_element st) →
  (root_element st ≤ last_element)%nat →
  parse_lines line_number lines last_element strict st = (Ok element, st') →
  wf_tree (heap st') (root_element st').
Proof.
  induction lines as [|line lines IH];
    intros line_number last_element strict st element st' Hwf Hrl; simpl.
  - unfold ret. by intros [= _ <-].
  - intros (e & st1 & H1 & H2)%bind_inv_Ok.
    destruct (parse_line_wf _ _ _ _ _ _ _ Hwf Hrl H1). eauto.
Qed.

Lemma wf_tree_fresh_root h : wf_tree (h ++ [RootElement]) (length h).
Proof.
  split.
  - exists RootElement. by rewrite list_lookup_middle.
  - intros i e Hi He. apply lookup_lt_Some in He.
    rewrite length_app in He. simpl in He. lia.
  - intros i e c Hi He Hc. pose proof (lookup_lt_Some _ _ _ He) as Hlt.
    rewrite length_app in Hlt. simpl in Hlt.
    assert (i = length h) as -> by lia.
    rewrite list_lookup_middle in He by done. injection He as <-.
    by apply elem_of_nil in Hc.
Qed.

Lemma parse_wf string strict st st' :
  parse string strict st = (Ok (), st') →
  wf_tree (heap st') (root_element st').
Proof.
  unfold parse. unfold bind at 1. simpl. unfold bind at 1. simpl.
  unfold bind at 1. simpl.
  intros (e & st1 & H1 & H2)%bind_inv_Ok. unfold ret in H2.
  injection H2 as <-.
  eapply parse_lines_wf in H1; [done| |done]. apply wf_tree_fresh_root.
Qed.

(** The new element as the attach step leaves it. *)
Lemma attach_new_element h p pe new : (p < length h)%nat →
  attach h p pe new !! length h = Some (with_parent new p) ∧
  attach h p pe new !! p = Some (with_child pe (length h)).
Proof.
  intros Hp. rewrite !lookup_attach by done.
  rewrite decide_True by done. rewrite decide_False by lia.
  by rewrite decide_True.
Qed.

(** C9. After a successful [parse] the root is at level -1 and every
    parent-child edge of the tree goes one level down, so that the
    top-level records are at level 0.  The invariant behind it is kept by
    every accepted line: [parse_line] hangs the new element, as last
    child, below the node found one level above the parsed level. *)
Theorem parse_levels_invariant :
  (∀ (string : str) (strict : bool) (st st' : State),
     parse string strict st = (Ok (), st') →
     levels_ok (heap st') (root_element st')) ∧
  (∀ (line_number : nat) (line : str) (last_element : eid) (strict : bool)
     (st st' : State) (element : eid),
     wf_tree (heap st) (root_element st) →
     (root_element st ≤ last_element)%nat →
     parse_line line_number line last_element strict st = (Ok element, st') →
     wf_tree (heap st') (root_element st') ∧
     levels_ok (heap st') (root_element st') ∧
     ∃ e p pe,
       heap st' !! element = Some e ∧ get_parent_element e = Some p ∧
       heap st' !! p = Some pe ∧ get_level pe = get_level e - 1 ∧
       last (get_child_elements pe) = Some element).
Proof.
  split.
  - intros string strict st st' Hok.
    by apply wf_tree_levels_ok, (parse_wf string strict st).
  - intros line_number line last_element strict st st' element Hwf Hrl Hok.
    destruct (parse_line_wf _ _ _ _ _ _ _ Hwf Hrl Hok) as [Hwf' _].
    split_and!; [done|by apply wf_tree_levels_ok|].
    destruct (parse_line_Ok_inv _ _ _ _ _ _ _ Hok)
      as (last & level & pointer & tag & value & crlf & Hlast & Hfields & Hle).
    destruct (parse_line_attach _ _ _ _ _ _ _ _ _ _ _ Hwf Hrl Hlast Hfields Hle)
      as (p & pe & Hrange & Hpe & Hlev & _ & Heq).
    rewrite Heq in Hok. injection Hok as <- <-. simpl.
    destruct (attach_new_element (heap st) p pe
                (new_element level pointer tag value crlf)) as [Hnew Hpar].
    { by eapply lookup_lt_Some. }
    eexists _, p, _. split_and!; [done|done|done|simpl; lia|].
    simpl. apply last_snoc.
Qed.

(** ** C8: the state left by a format violation *)

Lemma walk_up_Raise fuel : ∀ h p level e,
  walk_up fuel h p level = Raise e → e = AttributeError ∨ e = Nontermination.
Proof.
  induction fuel as [|fuel IH]; intros h [p|] level e; simpl;
    try (intros [= <-]; by left).
  - destruct (h !! p) as [pe|]; [|intros [= <-]; by left].
    destruct (get_level pe >? level - 1); [|done]. intros [= <-]. by right.
  - destruct (h !! p) as [pe|]; [|intros [= <-]; by left].
    destruct (get_level pe >? level - 1); [|done]. apply IH.
Qed.

(** Both format violations are raised before anything is built. *)
Lemma parse_line_violation line_number line last_element strict st n raw st' :
  parse_line line_number line last_element strict st
    = (Raise (GedcomFormatViolationError n raw), st') →
  st' = st ∧ n = line_number.
Proof.
  unfold parse_line, bind, deref. step_m.
  destruct (heap st !! last_element) as [last|]; [|done].
  destruct (line_fields line_number line last strict)
    as [[[[[level pointer] tag] value] crlf]|e] eqn:Hfields.
  - destruct (level >? get_level last + 1); [by intros [= <- <- <-]|].
    unfold create_element. simpl.
    destruct (walk_up _ _ _ _) as [p|e] eqn:Hwalk.
    + unfold add_child_element. simpl.
      destruct (_ !! p) as [pe|]; [|done].
      by destruct (_ !! length (heap st)).
    + apply walk_up_Raise in Hwalk as [-> | ->]; done.
  - intros [= -> <-]. split; [done|].
    unfold line_fields in Hfields.
    repeat (case_match; simpl in *; try done). by injection Hfields as <-.
Qed.

Lemma parse_lines_violation lines :
  ∀ line_number last_element strict st n raw st',
    parse_lines line_number lines last_element strict st
      = (Raise (GedcomFormatViolationError n raw), st') →
    ∃ pre bad post last,
      lines = pre ++ bad :: post ∧
      n = (line_number + length pre)%nat ∧
      parse_lines line_number pre last_element strict st = (Ok last, st') ∧
      parse_line n bad last strict st'
        = (Raise (GedcomFormatViolationError n raw), st').
Proof.
  induction lines as [|line lines IH];
    intros line_number last_element strict st n raw st'; simpl; [done|].
  unfold bind at 1.
  destruct (parse_line line_number line last_element strict st)
    as [[element|e] st1] eqn:Hline.
  - intros (pre & bad & post & last & -> & -> & Hpre & Hbad)%IH.
    exists (line :: pre), bad, post, last. simpl.
    split_and!; [done|lia| |].
    + by rewrite (bind_Ok _ _ _ _ _ Hline).
    + by replace (line_number + S (length pre))%nat
        with (S line_number + length pre)%nat by lia.
  - intros [= -> <-].
    destruct (parse_line_violation _ _ _ _ _ _ _ _ Hline) as [-> ->].
    exists [], line, lines, last_element. simpl.
    rewrite Nat.add_0_r. by split_and!.
Qed.

(** C8 (amended). When [parse] raises a format violation at line [n], the
    lines after it are not read, and the parser is left in the state that
    the lines before line [n] have built: the fresh root of this call and
    below it the elements of the accepted lines. *)
Theorem parse_violation_keeps_prefix (string : str) (strict : bool)
    (st st' : State) (n : nat) (raw : option str) :
  parse string strict st = (Raise (GedcomFormatViolationError n raw), st') →
  ∃ pre bad post last,
    PyStr.split LF (PyStr.strip string) = pre ++ bad :: post ∧
    n = S (length pre) ∧
    parse_lines 1 pre (length (heap st)) strict (fresh_document st)
      = (Ok last, st') ∧
    parse_line n bad last strict st'
      = (Raise (GedcomFormatViolationError n raw), st').
Proof.
  unfold parse. unfold bind at 1. simpl. unfold bind at 1. simpl.
  unfold bind at 1. simpl. unfold bind at 1.
  fold (fresh_document st).
  destruct (parse_lines 1 _ _ _ _) as [[last|e] st1] eqn:Hlines; [done|].
  intros [= -> <-].
  apply parse_lines_violation in Hlines
    as (pre & bad & post & last & Hsplit & -> & Hpre & Hbad).
  exists pre, bad, post, last. by split_and!.
Qed.

(** ** The pointer index, as the queries see it *)

Lemma get_element_dictionary_spec st :
  is_Some (heap st !! root_element st) →
  get_element_dictionary st = (Ok (dictionary_of st), cached st).
Proof.
  intros [root Hroot]. unfold get_element_dictionary, cached, dictionary_of.
  destruct (decide (element_dictionary st = ∅)) as [Hempty|Hfull].
  - unfold get_root_child_elements, set_element_dictionary, bind, deref.
    step_m. by rewrite Hroot.
  - by destruct st.
Qed.

Lemma dictionary_of_cached st : dictionary_of (cached st) = dictionary_of st.
Proof.
  unfold dictionary_of at 1. simpl.
  destruct (decide (dictionary_of st = ∅)) as [Hempty|Hfull]; [|done].
  rewrite Hempty. unfold dictionary_of in *.
  by destruct (decide (element_dictionary st = ∅)).
Qed.

Lemma cached_cached st : cached (cached st) = cached st.
Proof. unfold cached at 1. simpl. by rewrite dictionary_of_cached. Qed.

Lemma get_element_by_pointer_spec st pointer :
  is_Some (heap st !! root_element st) →
  get_element_by_pointer pointer st = (Ok (dictionary_of st !! pointer), cached st).
Proof.
  intros Hroot. unfold get_element_by_pointer.
  by rewrite (bind_Ok _ _ _ _ _ (get_element_dictionary_spec st Hroot)).
Qed.

(** ** C4: the parents of an individual *)

(** C4. For an Individual, [get_parents] returns a pair (husband, wife),
    in this order.  Without a child-of-family link both slots are [None].
    With a family, the husband slot is the element that the husband pointer
    resolves to, or [None] when the family has no husband pointer, and the
    same for the wife slot, each slot on its own. *)
Theorem get_parents_slots (st : State) (individual : eid) (ind : Element) :
  is_Some (heap st !! root_element st) →
  as_individual (heap st) (Some individual) = Some ind →
  ∃ husband wife st',
    get_parents (Some individual) st = (Ok (husband, wife), st') ∧
    (is_child_in_a_family (heap st) ind = false →
       husband = None ∧ wife = None) ∧
    (∀ fam, parent_family st ind = Some fam →
       husband = (if has_husband (heap st) fam
                  then dictionary_of st !! get_husband_pointer (heap st) fam
                  else None) ∧
       wife = (if has_wife (heap st) fam
               then dictionary_of st !! get_wife_pointer (heap st) fam
               else None) ∧
       (has_husband (heap st) fam = false → husband = None) ∧
       (has_wife (heap st) fam = false → wife = None)).
Proof.
  intros Hroot Hind. unfold get_parents, parent_family. unfold bind at 1.
  step_m. rewrite Hind.
  destruct (is_child_in_a_family (heap st) ind) eqn:Hchild; simpl.
  2: { exists None, None, st. split_and!; [done|done|]. by intros fam [=]. }
  rewrite (bind_Ok _ _ _ _ _ (get_element_by_pointer_spec st _ Hroot)).
  destruct (as_family _ _) as [fam|] eqn:Hfam.
  2: { exists None, None, (cached st). split_and!; [done|done|]. by intros fam [=]. }
  assert (is_Some (heap (cached st) !! root_element (cached st))) as Hroot1 by done.
  assert (is_Some (heap (cached (cached st)) !! root_element (cached (cached st))))
    as Hroot2 by done.
  destruct (has_husband (heap st) fam) eqn:Hh;
    destruct (has_wife (heap st) fam) eqn:Hw.
  - rewrite (bind_Ok _ _ _ _ _ (get_element_by_pointer_spec _ _ Hroot1)).
    rewrite (bind_Ok _ _ _ _ _ (get_element_by_pointer_spec _ _ Hroot2)).
    rewrite !dictionary_of_cached. eexists _, _, _. split_and!; [done|done|].
    intros ? [= <-]. rewrite Hh, Hw. by split_and!.
  - rewrite (bind_Ok _ _ _ _ _ (get_element_by_pointer_spec _ _ Hroot1)).
    rewrite !dictionary_of_cached. eexists _, _, _. split_and!; [done|done|].
    intros ? [= <-]. rewrite Hh, Hw. by split_and!.
  - unfold bind at 1. step_m.
    rewrite (bind_Ok _ _ _ _ _ (get_element_by_pointer_spec _ _ Hroot1)).
    rewrite !dictionary_of_cached. eexists _, _, _. split_and!; [done|done|].
    intros ? [= <-]. rewrite Hh, Hw. by split_and!.
  - eexists _, _, _. unfold bind. step_m. split_and!; [done|done|].
    intros ? [= <-]. rewrite Hh, Hw. by split_and!.
Qed.

(** ** C2 and C7: the recursive queries *)

(** No call of [get_ancestors] returns a list: the recursion ends only at
    an absent parent, where the Individual check raises, or at the
    recursion limit. *)
Lemma get_ancestors_never_returns depth : ∀ individual st l st',
  get_ancestors depth individual st ≠ (Ok l, st').
Proof.
  induction depth as [|depth IH]; intros individual st l st'; [done|].
  cbn [get_ancestors]. unfold bind at 1. step_m.
  destruct (as_individual (heap st) individual); [|done].
  unfold bind at 1.
  destruct (get_parents individual st) as [[parents|e1] st1]; [|done].
  cbn [extend_each]. unfold bind at 1.
  destruct (get_ancestors depth parents.1 st1) as [[AF|e2] st2] eqn:HF; [|done].
  by apply IH in HF.
Qed.

(** [find_path_to_ancestor] never returns [None] for "no path": a search
    that does not find the ancestor ends at an absent parent, where the
    Individual check raises, or at the recursion limit. *)
Lemma find_path_never_not_found depth : ∀ descendant ancestor path st st',
  find_path_to_ancestor depth descendant ancestor path st ≠ (Ok None, st').
Proof.
  induction depth as [|depth IH]; intros descendant ancestor path st st'; [done|].
  cbn [find_path_to_ancestor]. unfold bind at 1. step_m.
  destruct (as_individual (heap st) descendant); [|done].
  destruct (as_individual (heap st) ancestor) as [anc|]; [|done].
  destruct (_ ≫= _) as [e0|]; [|done].
  case_bool_decide; [done|].
  unfold bind at 1.
  destruct (get_parents descendant st) as [[parents|e1] st1]; [|done].
  cbn [first_found]. unfold bind at 1.
  destruct (find_path_to_ancestor depth parents.1 ancestor _ st1)
    as [[[p|]|e2] st2] eqn:HF; [done| |done].
  by apply IH in HF.
Qed.

(** ** C3: marriages *)

Section loops.

Context {A B : Type}.

Lemma foldl_append_if (P : A → Prop) `{!∀ x, Decision (P x)} (f : A → B) l :
  ∀ acc,
    foldl (λ acc x, if bool_decide (P x) then acc ++ [f x] else acc) acc l
    = acc ++ (f <$> filter P l).
Proof.
  induction l as [|x l IH]; intros acc; simpl.
  - by rewrite (right_id_L [] (++)).
  - rewrite IH, filter_cons. case_bool_decide.
    + rewrite decide_True by done. simpl. by rewrite <- (assoc_L (++)).
    + by rewrite decide_False.
Qed.

Lemma foldl_same_body (f g : B → A → B) l :
  (∀ acc x, f acc x = g acc x) → ∀ acc, foldl f acc l = foldl g acc l.
Proof.
  intros Hfg. induction l as [|x l IH]; intros acc; simpl; [done|].
  by rewrite Hfg, IH.
Qed.

Lemma foldl_append_each (g : A → list B) l :
  ∀ acc, foldl (λ acc x, acc ++ g x) acc l = acc ++ (l ≫= g).
Proof.
  induction l as [|x l IH]; intros acc; simpl.
  - by rewrite (right_id_L [] (++)).
  - by rewrite IH, <- (assoc_L (++)).
Qed.

Lemma foldl_append_found (P : A → Prop) `{!∀ x, Decision (P x)}
    (g : A → option B) l :
  ∀ acc,
    foldl (λ acc x, if bool_decide (P x)
                    then match g x with Some y => acc ++ [y] | None => acc end
                    else acc) acc l
    = acc ++ omap g (filter P l).
Proof.
  induction l as [|x l IH]; intros acc; simpl.
  - by rewrite (right_id_L [] (++)).
  - rewrite IH, filter_cons. case_bool_decide.
    + rewrite decide_True by done. simpl.
      destruct (g x); [|done]. by rewrite <- (assoc_L (++)).
    + by rewrite decide_False.
Qed.

End loops.

(** A variable assigned at every element that satisfies [P] ends with the
    value of the last such element. *)
Lemma last_assignment (P Q : Element → Prop)
    `{!∀ x, Decision (P x)} `{!∀ x, Decision (Q x)} (l : list Element) :
  ∀ d p,
    foldl (λ dp x, (if bool_decide (P x) then get_value x else dp.1,
                    if bool_decide (Q x) then get_value x else dp.2))
          (d, p) l
    = (from_option get_value d (last (filter P l)),
       from_option get_value p (last (filter Q l))).
Proof.
  induction l as [|x l IH]; intros d p; simpl; [done|].
  rewrite IH, !filter_cons. f_equal.
  - case_bool_decide.
    + rewrite decide_True by done. rewrite last_cons.
      by destruct (last (filter P l)).
    + by rewrite decide_False.
  - case_bool_decide.
    + rewrite decide_True by done. rewrite last_cons.
      by destruct (last (filter Q l)).
    + by rewrite decide_False.
Qed.

Lemma marriage_date_place_last h family_data :
  marriage_date_place h family_data =
  (last_value_with_tag h family_data GEDCOM_TAG_DATE,
   last_value_with_tag h family_data GEDCOM_TAG_PLACE).
Proof.
  unfold marriage_date_place, last_value_with_tag, children_with_tag.
  apply (last_assignment (λ c, get_tag c = GEDCOM_TAG_DATE)
                         (λ c, get_tag c = GEDCOM_TAG_PLACE)).
Qed.

Lemma get_families_spec st individual ind family_type :
  is_Some (heap st !! root_element st) →
  as_individual (heap st) (Some individual) = Some ind →
  get_families (Some individual) family_type st =
    (Ok (omap (λ c, dictionary_of st !! get_value c)
              (children_with_tag (heap st) ind family_type)),
     cached st).
Proof.
  intros Hroot Hind. unfold get_families. unfold bind at 1. step_m.
  rewrite Hind.
  rewrite (bind_Ok _ _ _ _ _ (get_element_dictionary_spec st Hroot)).
  unfold ret. do 2 f_equal. unfold children_with_tag.
  by rewrite (foldl_append_found (λ c, get_tag c = family_type)
                (λ c, dictionary_of st !! get_value c)).
Qed.

(** C3 (amended). For an Individual, [get_marriages] returns one (date,
    place) pair for every marriage event of every spouse family, in source
    order.  The date is the value of the last child of the event with the
    date tag and the place the value of the last child with the place tag;
    a field with no such child is the empty string. *)
Theorem get_marriages_last_wins (st : State) (individual : eid) (ind : Element) :
  is_Some (heap st !! root_element st) →
  as_individual (heap st) (Some individual) = Some ind →
  get_marriages (Some individual) st = (Ok (marriages_of st ind), cached st).
Proof.
  intros Hroot Hind. unfold get_marriages. unfold bind at 1. step_m.
  rewrite Hind.
  rewrite (bind_Ok _ _ _ _ _
             (get_families_spec st individual ind _ Hroot Hind)).
  unfold ret. do 2 f_equal. unfold marriages_of. fold (spouse_families st ind).
  trans ([] ++ spouse_families st ind ≫= λ family,
           (λ m, (last_value_with_tag (heap st) m GEDCOM_TAG_DATE,
                  last_value_with_tag (heap st) m GEDCOM_TAG_PLACE))
             <$> marriage_events (heap st) family); [|done].
  rewrite <- foldl_append_each.
  apply foldl_same_body. intros marriages family.
  rewrite (foldl_append_if (λ c, get_tag c = GEDCOM_TAG_MARRIAGE)
             (marriage_date_place (heap st))).
  f_equal. unfold marriage_events.
  destruct (heap st !! family) as [fam|]; simpl; [|done].
  unfold children_with_tag. apply list_fmap_ext.
  intros _ m _. apply marriage_date_place_last.
Qed.

(** ** The shape of a line of the primary grammar *)

Lemma elem_of_run_Plus p s c :
  c ∈ run (Plus p) s →
  c.1.2 = [] ∧ c.1.1 ≠ [] ∧ Forall (λ x, p x = true) c.1.1.
Proof.
  unfold Plus. intros (c1 & c2 & H1 & H2 & ->)%elem_of_run_Seq.
  apply elem_of_run_Class in H1 as (x & s' & -> & Hx & ->).
  apply elem_of_run_Star in H2 as (m & -> & _ & Hm). simpl.
  split_and!; [done|done|by constructor].
Qed.

Lemma elem_of_run_level s c :
  c ∈ run level_regex s →
  ∃ lvl, c.1.1 = lvl ++ [SPACE] ∧ c.1.2 = [lvl] ∧ lvl ≠ []
         ∧ Forall (λ x, is_digit x = true) lvl.
Proof.
  unfold level_regex. intros (c1 & c2 & H1 & H2 & ->)%elem_of_run_Seq.
  apply elem_of_run_Lit in H2 as (s' & _ & ->).
  apply elem_of_run_Group in H1 as (c0 & H0 & ->). simpl.
  simpl in H0. apply elem_of_app in H0 as [H0|H0].
  - apply (elem_of_run_Lit 48) in H0 as (s'' & _ & ->). simpl.
    exists [48%N]. split_and!; [done..|]. by repeat constructor.
  - apply (elem_of_run_Seq (Plus _) (Star _)) in H0 as (c1 & c2 & H1 & H2 & ->).
    apply elem_of_run_Plus in H1 as (Hg & Hne & Hall).
    apply elem_of_run_Star in H2 as (m & -> & _ & Hm). simpl.
    rewrite Hg. simpl.
    eexists. split_and!; [done|done| |].
    + by destruct (c1.1.1).
    + apply Forall_app. split; [|done].
      eapply Forall_impl; [exact Hall|]. unfold is_nonzero_digit, is_digit.
      intros x. rewrite !andb_true_iff, !N.leb_le. lia.
Qed.

Lemma elem_of_run_pointer s c :
  c ∈ run pointer_regex s →
  c.1.2 = [c.1.1] ∧
  (c.1.1 = [] ∨ ∃ id, c.1.1 = 64%N :: id ++ [64%N; SPACE] ∧ id ≠ []
                      ∧ Forall (λ x, is_not_at x = true) id).
Proof.
  unfold pointer_regex. intros (c0 & H0 & ->)%elem_of_run_Group. simpl.
  simpl in H0. apply elem_of_app in H0 as [H0|H0].
  - apply (elem_of_run_Seq (Lit 64) (Seq (Plus _) (Seq (Lit 64) (Lit SPACE))))
      in H0 as (c1 & c' & H1 & H0 & ->).
    apply elem_of_run_Lit in H1 as (s1 & _ & ->).
    apply elem_of_run_Seq in H0 as (c2 & c'' & H2 & H0 & ->).
    apply elem_of_run_Plus in H2 as (Hg & Hne & Hall).
    apply elem_of_run_Seq in H0 as (c3 & c4 & H3 & H4 & ->).
    apply elem_of_run_Lit in H3 as (s3 & _ & ->).
    apply elem_of_run_Lit in H4 as (s4 & _ & ->). simpl.
    rewrite Hg. simpl. split; [done|]. right. by exists c2.1.1.
  - apply list_elem_of_singleton in H0 as ->. simpl. split; [done|by left].
Qed.

Lemma elem_of_run_tag s c :
  c ∈ run tag_regex s →
  c.1.2 = [c.1.1] ∧ c.1.1 ≠ [] ∧ Forall (λ x, is_tag_char x = true) c.1.1.
Proof.
  unfold tag_regex. intros (c0 & H0 & ->)%elem_of_run_Group. simpl.
  apply elem_of_run_Plus in H0 as (Hg & Hne & Hall). by rewrite Hg.
Qed.

Lemma elem_of_run_value s c :
  c ∈ run value_regex s →
  c.1.2 = [c.1.1] ∧ Forall (λ x, is_eol x = false) c.1.1 ∧
  (c.1.1 = [] ∨ ∃ v, c.1.1 = SPACE :: v).
Proof.
  unfold value_regex. intros (c0 & H0 & ->)%elem_of_run_Group. simpl.
  simpl in H0. apply elem_of_app in H0 as [H0|H0].
  - apply (elem_of_run_Seq (Lit SPACE) (Star _)) in H0 as (c1 & c2 & H1 & H2 & ->).
    apply elem_of_run_Lit in H1 as (s1 & _ & ->).
    apply elem_of_run_Star in H2 as (m & -> & _ & Hm). simpl.
    split_and!; [done| |right; eauto].
    constructor; [done|]. eapply Forall_impl; [exact Hm|].
    intros x. unfold is_not_eol, is_eol.
    rewrite negb_true_iff, !orb_false_iff. tauto.
  - apply list_elem_of_singleton in H0 as ->. simpl.
    split_and!; [done|done|by left].
Qed.

(** The groups of a match of the primary grammar and the way they cut the
    line: level, one space, pointer (with its space), tag, value (with
    its space), end of line, and whatever follows. *)
Lemma gedcom_line_shape line g :
  re_match gedcom_line_regex line = Some g →
  ∃ lvl ptr tag rem eol rest,
    g = [lvl; ptr; tag; rem; eol] ∧
    line = lvl ++ SPACE :: ptr ++ tag ++ rem ++ eol ++ rest ∧
    (lvl ≠ [] ∧ Forall (λ x, is_digit x = true) lvl) ∧
    (ptr = [] ∨ ∃ id, ptr = 64%N :: id ++ [64%N; SPACE] ∧ id ≠ []
                      ∧ Forall (λ x, is_not_at x = true) id) ∧
    (tag ≠ [] ∧ Forall (λ x, is_tag_char x = true) tag) ∧
    (Forall (λ x, is_eol x = false) rem ∧ (rem = [] ∨ ∃ v, rem = SPACE :: v)) ∧
    (eol ≠ [] ∧ Forall (λ x, is_eol x = true) eol).
Proof.
  intros (c & Hc & <-)%re_match_Some. unfold gedcom_line_regex in Hc.
  apply elem_of_run_Seq in Hc as (c1 & c' & H1 & Hc & ->).
  apply elem_of_run_Seq in Hc as (c2 & c'' & H2 & Hc & ->).
  apply elem_of_run_Seq in Hc as (c3 & c''' & H3 & Hc & ->).
  apply elem_of_run_Seq in Hc as (c4 & c5 & H4 & H5 & ->).
  pose proof (run_consumes _ _ _ H1) as E1.
  pose proof (run_consumes _ _ _ H2) as E2.
  pose proof (run_consumes _ _ _ H3) as E3.
  pose proof (run_consumes _ _ _ H4) as E4.
  pose proof (run_consumes _ _ _ H5) as E5.
  apply elem_of_run_level in H1 as (lvl & Hm1 & Hg1 & Hlvl1 & Hlvl2).
  apply elem_of_run_pointer in H2 as (Hg2 & Hptr).
  apply elem_of_run_tag in H3 as (Hg3 & Htag1 & Htag2).
  apply elem_of_run_value in H4 as (Hg4 & Hrem1 & Hrem2).
  apply elem_of_run_end_of_line in H5 as (_ & _ & _ & _ & Hg5 & Hall & Hne).
  exists lvl, c2.1.1, c3.1.1, c4.1.1, c5.1.1, c5.2. simpl.
  rewrite Hg1, Hg2, Hg3, Hg4, Hg5. split_and!; [done| |done..].
  rewrite E1, E2, E3, E4, E5, Hm1 at 1.
  by rewrite <- (assoc_L (++)).
Qed.

(** ** C6: the value of a line of the primary grammar *)

Lemma line_fields_primary line_number line last strict g level :
  re_match gedcom_line_regex line = Some g →
  PyStr.int (part g 0) = Some level →
  line_fields line_number line last strict =
    Ok (level,
        Some (PyStr.rstrip (N.eqb SPACE) (part g 1)),
        part g 2, PyStr.strip (part g 3), part g 4).
Proof. unfold line_fields. by intros -> ->. Qed.

(** C6 (amended). For a line that the primary grammar matches (and whose
    level is accepted), the line is cut into level, space, pointer, tag,
    remainder, end of line; the value stored on the produced element is
    the remainder after the tag with all white space removed at both ends,
    not only one leading space. *)
Theorem primary_value_stripped (line_number : nat) (line : str)
    (last_element : eid) (strict : bool) (st : State) (last : Element)
    (g : list str) (level : Z) :
  wf_tree (heap st) (root_element st) →
  (root_element st ≤ last_element)%nat →
  heap st !! last_element = Some last →
  re_match gedcom_line_regex line = Some g →
  PyStr.int (part g 0) = Some level →
  level ≤ get_level last + 1 →
  ∃ lvl ptr tag rem eol rest e st',
    line = lvl ++ SPACE :: ptr ++ tag ++ rem ++ eol ++ rest ∧
    Forall (λ x, is_digit x = true) lvl ∧
    (ptr = [] ∨ ∃ id, ptr = 64%N :: id ++ [64%N; SPACE]
                      ∧ Forall (λ x, is_not_at x = true) id) ∧
    (tag ≠ [] ∧ Forall (λ x, is_tag_char x = true) tag) ∧
    (Forall (λ x, is_eol x = false) rem ∧ (rem = [] ∨ ∃ v, rem = SPACE :: v)) ∧
    (eol ≠ [] ∧ Forall (λ x, is_eol x = true) eol) ∧
    parse_line line_number line last_element strict st
      = (Ok (length (heap st)), st') ∧
    heap st' !! length (heap st) = Some e ∧
    get_tag e = tag ∧
    get_value e = PyStr.strip rem.
Proof.
  intros Hwf Hrl Hlast Hmatch Hint Hle.
  destruct (gedcom_line_shape _ _ Hmatch)
    as (lvl & ptr & tag & rem & eol & rest & -> & Hline & [_ Hlvl] & Hptr
        & [Htag1 Htag2] & [Hrem1 Hrem2] & [Heol1 Heol2]).
  pose proof (line_fields_primary line_number line last strict _ _ Hmatch Hint)
    as Hfields.
  destruct (parse_line_attach _ _ _ _ _ _ _ _ _ _ _ Hwf Hrl Hlast Hfields Hle)
    as (p & pe & Hrange & Hpe & _ & _ & Heq).
  destruct (attach_new_element (heap st) p pe
              (new_element level
                 (Some (PyStr.rstrip (N.eqb SPACE) ptr)) tag
                 (PyStr.strip rem) eol)) as [Hnew _].
  { by eapply lookup_lt_Some. }
  eexists lvl, ptr, tag, rem, eol, rest, _, _.
  split_and!;
    [done|done| |done|done|done|done|done|done|exact Heq|exact Hnew|done|done].
  destruct Hptr as [?|(id & ? & _ & ?)]; [by left|right; eauto].
Qed.

(** ** C5: a line of free text in lenient mode *)

Lemma star_longest p (m rest : str) :
  Forall (λ x, p x = true) m →
  (∀ x s', rest = x :: s' → p x = false) →
  ∃ l, star p (m ++ rest) = (m, rest) :: l.
Proof.
  intros Hm Hrest. induction Hm as [|x m Hx _ [l IH]]; simpl.
  - destruct rest as [|y rest]; simpl; [by eexists|].
    rewrite (Hrest y rest eq_refl). by eexists.
  - rewrite Hx, IH. simpl. by eexists.
Qed.

Lemma run_end_of_line_head c rest :
  is_eol c = true →
  ∃ eol s' l, run end_of_line_regex (c :: rest) = (eol, [eol], s') :: l.
Proof.
  intros Hc. unfold end_of_line_regex, OneOrTwo. cbn [run].
  rewrite Hc. simpl. destruct rest as [|y rest]; simpl; [by eexists _, _, _|].
  destruct (is_eol y); simpl; by eexists _, _, _.
Qed.

Lemma run_line_regex_head text c rest :
  Forall (λ x, is_eol x = false) text → is_eol c = true →
  ∃ l, run line_regex (text ++ c :: rest) = (text, [text], c :: rest) :: l.
Proof.
  intros Htext Hc.
  destruct (star_longest is_not_eol text (c :: rest)) as [l Hstar].
  { eapply Forall_impl; [exact Htext|]. intros x. unfold is_not_eol, is_eol.
    rewrite negb_true_iff, !orb_false_iff. tauto. }
  { intros x s' [= <- <-]. unfold is_not_eol, is_eol in *.
    rewrite negb_false_iff. apply orb_true_iff in Hc as [?|?];
      apply orb_true_iff; tauto. }
  unfold line_regex. cbn [run]. rewrite Hstar. simpl. by eexists.
Qed.

Lemma run_Seq r1 r2 s :
  run (Seq r1 r2) s =
  c1 ← run r1 s; c2 ← run r2 c1.2;
  [(c1.1.1 ++ c2.1.1, c1.1.2 ++ c2.1.2, c2.2)].
Proof. done. Qed.

(** A run of text followed by a carriage return or a line feed matches
    the continuation pattern; group 1 is the text. *)
Lemma cont_line_match text c rest :
  Forall (λ x, is_eol x = false) text → is_eol c = true →
  ∃ eol, re_match cont_line_regex (text ++ c :: rest) = Some [text; eol].
Proof.
  intros Htext Hc.
  destruct (run_line_regex_head text c rest Htext Hc) as [l Hline].
  destruct (run_end_of_line_head c rest Hc) as (eol & s' & k & Heol).
  exists eol. unfold re_match, cont_line_regex.
  rewrite run_Seq, Hline, bind_cons. cbn [fst snd].
  by rewrite Heol, bind_cons.
Qed.

(** A line that the primary grammar matches is matched without its end of
    line, too. *)
Lemma last_line_None_gedcom_line_None line :
  re_match last_line_regex line = None →
  re_match gedcom_line_regex line = None.
Proof.
  intros Hnone.
  destruct (re_match gedcom_line_regex line) as [g|] eqn:Hm; [|done].
  exfalso. apply re_match_Some in Hm as (c & Hc & _).
  unfold gedcom_line_regex in Hc.
  apply elem_of_run_Seq in Hc as (c1 & c' & H1 & Hc & _).
  apply elem_of_run_Seq in Hc as (c2 & c'' & H2 & Hc & _).
  apply elem_of_run_Seq in Hc as (c3 & c''' & H3 & Hc & _).
  apply elem_of_run_Seq in Hc as (c4 & c5 & H4 & _ & _).
  assert (∃ c0, c0 ∈ run last_line_regex line) as [c0 Hc0].
  { unfold last_line_regex. eexists.
    apply elem_of_run_Seq. eexists c1, _. split_and!; [done| |done].
    apply elem_of_run_Seq. eexists c2, _. split_and!; [done| |done].
    apply elem_of_run_Seq. eexists c3, c4. by split_and!. }
  unfold re_match in Hnone.
  destruct (run last_line_regex line); [by apply elem_of_nil in Hc0|done].
Qed.

Lemma line_fields_continuation line_number text c rest last :
  Forall (λ x, is_eol x = false) text → is_eol c = true →
  re_match last_line_regex (text ++ c :: rest) = None →
  ∃ eol,
    line_fields line_number (text ++ c :: rest) last false =
    if decide (get_tag last = GEDCOM_TAG_CONTINUED
               ∨ get_tag last = GEDCOM_TAG_CONCATENATION)
    then Ok (get_level last, None, get_tag last, PyStr.strip text, eol)
    else Ok (get_level last + 1, None, GEDCOM_TAG_CONCATENATION,
             PyStr.strip text, eol).
Proof.
  intros Htext Hc Hnone.
  destruct (cont_line_match text c rest Htext Hc) as [eol Hcont].
  exists eol. unfold line_fields.
  rewrite (last_line_None_gedcom_line_None _ Hnone), Hnone, Hcont.
  unfold part. simpl.
  destruct (decide _) as [[Heq|Heq]|Hne].
  - by rewrite bool_decide_false by (by intros ?).
  - rewrite (bool_decide_false (_ ≠ GEDCOM_TAG_CONCATENATION)) by (by intros ?).
    by rewrite andb_false_r.
  - rewrite !bool_decide_true; [done|intros ?|intros ?]; apply Hne; tauto.
Qed.

(** C5 (amended). In lenient mode a line with no level, pointer and tag,
    made of text and a terminator, gives an element whose value is the
    text with the white space at both ends removed.  After a continuation
    or concatenation element it has the level and the tag of that element;
    after any other element it is one level deeper, tagged as a
    concatenation, and it is the last child of that element. *)
Theorem continuation_line (line_number : nat) (text : str) (c : char)
    (rest : str) (last_element : eid) (st : State) (prev : Element) :
  wf_tree (heap st) (root_element st) →
  (root_element st ≤ last_element)%nat →
  heap st !! last_element = Some prev →
  Forall (λ x, is_eol x = false) text → is_eol c = true →
  re_match last_line_regex (text ++ c :: rest) = None →
  ∃ e st',
    parse_line line_number (text ++ c :: rest) last_element false st
      = (Ok (length (heap st)), st') ∧
    heap st' !! length (heap st) = Some e ∧
    get_value e = PyStr.strip text ∧
    if decide (get_tag prev = GEDCOM_TAG_CONTINUED
               ∨ get_tag prev = GEDCOM_TAG_CONCATENATION)
    then get_level e = get_level prev ∧ get_tag e = get_tag prev
    else get_level e = get_level prev + 1 ∧
         get_tag e = GEDCOM_TAG_CONCATENATION ∧
         get_parent_element e = Some last_element ∧
         ∃ last', heap st' !! last_element = Some last' ∧
                  last (get_child_elements last') = Some (length (heap st)).
Proof.
  intros Hwf Hrl Hlast Htext Hc Hnone.
  destruct (line_fields_continuation line_number text c rest prev Htext Hc Hnone)
    as [eol Hfields].
  destruct (decide _) as [Hcont|Hother].
  - destruct (parse_line_attach _ _ _ _ _ _ _ _ _ _ _ Hwf Hrl Hlast Hfields)
      as (p & pe & Hrange & Hpe & _ & _ & Heq); [lia|].
    destruct (attach_new_element (heap st) p pe
                (new_element (get_level prev) None (get_tag prev)
                   (PyStr.strip text) eol)) as [Hnew _].
    { by eapply lookup_lt_Some. }
    eexists _, _. by split_and!.
  - destruct (parse_line_attach _ _ _ _ _ _ _ _ _ _ _ Hwf Hrl Hlast Hfields)
      as (p & pe & Hrange & Hpe & _ & Hsame & Heq); [lia|].
    rewrite Hsame in Hpe, Heq by lia. rewrite Hlast in Hpe. injection Hpe as <-.
    destruct (attach_new_element (heap st) last_element prev
                (new_element (get_level prev + 1) None GEDCOM_TAG_CONCATENATION
                   (PyStr.strip text) eol)) as [Hnew Hpar].
    { by eapply lookup_lt_Some. }
    eexists _, _. split_and!; [exact Heq|exact Hnew|done|done|done|done|].
    eexists. split; [exact Hpar|]. simpl. apply last_snoc.
Qed.

(** ** Worked documents *)

Lemma example_state_parse :
  parse example_document false Parser__init__ = (Ok (), example_state).
Proof. vm_compute. reflexivity. Qed.

Lemma marriage_state_parse :
  parse marriage_document false Parser__init__ = (Ok (), marriage_state).
Proof. vm_compute. reflexivity. Qed.

Lemma header_state_parse :
  parse (py "0 HEAD
1 SOUR X") false Parser__init__ = (Ok (), header_state).
Proof. vm_compute. reflexivity. Qed.

Lemma parse_line_level_jump_witness :
  parse_line 3 (py "3 VERS 5" ++ [LF]) 3 true header_state
  = (Raise (GedcomFormatViolationError 3 None), header_state).
Proof.
  eapply parse_line_level_jump.
  - vm_compute. reflexivity.
  - vm_compute. reflexivity.
  - vm_compute. reflexivity.
Defined.

Lemma parse_strict_bare_line_feed_witness :
  ∃ line rest,
    PyStr.split LF (PyStr.strip example_document) = line :: rest ∧
    parse example_document true Parser__init__ =
      (Raise (GedcomFormatViolationError 1 (Some line)),
       mkState (heap Parser__init__ ++ [RootElement]) [] ∅
               (length (heap Parser__init__))).
Proof.
  apply parse_strict_bare_line_feed.
  apply (bool_decide_unpack _). vm_compute. exact I.
Defined.

Lemma parse_levels_invariant_witness :
  levels_ok (heap example_state) (root_element example_state) ∧
  let st' := (parse_line 1 (py "0 HEAD" ++ [LF]) 0 true Parser__init__).2 in
  wf_tree (heap st') (root_element st') ∧
  levels_ok (heap st') (root_element st') ∧
  ∃ e p pe,
    heap st' !! 1%nat = Some e ∧ get_parent_element e = Some p ∧
    heap st' !! p = Some pe ∧ get_level pe = get_level e - 1 ∧
    last (get_child_elements pe) = Some 1%nat.
Proof.
  split.
  - apply (proj1 parse_levels_invariant example_document false Parser__init__).
    vm_compute. reflexivity.
  - apply (proj2 parse_levels_invariant 1%nat (py "0 HEAD" ++ [LF]) 0%nat true
             Parser__init__).
    + exact (wf_tree_fresh_root []).
    + simpl. lia.
    + vm_compute. reflexivity.
Defined.

(** C8, as stated, fails: after the violation at the third line of
    [jump_document] the root of the parser still owns the header built
    from the first line, with the element of the second line below it. *)
Lemma parse_violation_exposes_prefix :
  let r := parse jump_document true Parser__init__ in
  r.1 = Raise (GedcomFormatViolationError 3 None) ∧
  (get_root_child_elements r.2).1 = Ok [2%nat] ∧
  (get_tag <$> heap r.2 !! 2%nat) = Some (py "HEAD") ∧
  (get_child_elements <$> heap r.2 !! 2%nat) = Some [3%nat] ∧
  (get_tag <$> heap r.2 !! 3%nat) = Some (py "SOUR").
Proof. vm_compute. by split_and!. Qed.

Lemma parse_violation_keeps_prefix_witness :
  ∃ pre bad post last,
    PyStr.split LF (PyStr.strip jump_document) = pre ++ bad :: post ∧
    3%nat = S (length pre) ∧
    parse_lines 1 pre (length (heap Parser__init__)) true
        (fresh_document Parser__init__)
      = (Ok last, (parse jump_document true Parser__init__).2) ∧
    parse_line 3 bad last true (parse jump_document true Parser__init__).2
      = (Raise (GedcomFormatViolationError 3 None),
         (parse jump_document true Parser__init__).2).
Proof.
  apply (parse_violation_keeps_prefix jump_document true Parser__init__).
  vm_compute. reflexivity.
Defined.

Lemma get_parents_slots_witness :
  ∃ ind husband wife st',
    as_individual (heap example_state) (Some 12%nat) = Some ind ∧
    get_parents (Some 12%nat) example_state = (Ok (husband, wife), st') ∧
    (is_child_in_a_family (heap example_state) ind = false →
       husband = None ∧ wife = None) ∧
    (∀ fam, parent_family example_state ind = Some fam →
       husband = (if has_husband (heap example_state) fam
                  then dictionary_of example_state
                       !! get_husband_pointer (heap example_state) fam
                  else None) ∧
       wife = (if has_wife (heap example_state) fam
               then dictionary_of example_state
                    !! get_wife_pointer (heap example_state) fam
               else None) ∧
       (has_husband (heap example_state) fam = false → husband = None) ∧
       (has_wife (heap example_state) fam = false → wife = None)).
Proof.
  eexists.
  assert (is_Some (heap example_state !! root_element example_state)) as Hroot.
  { eexists. vm_compute. reflexivity. }
  assert (as_individual (heap example_state) (Some 12%nat)
          = Some (mkElement 0 (Some (py "@I3@")) (py "INDI") [] [LF]
                            [13%nat; 14%nat] (Some 1%nat))) as Hind.
  { vm_compute. reflexivity. }
  destruct (get_parents_slots example_state 12%nat _ Hroot Hind)
    as (husband & wife & st' & H).
  exists husband, wife, st'. split; [exact Hind|exact H].
Defined.

(** C2 at the failing input: Jim's father and mother are both present, and
    [get_ancestors] returns no list for him, so not the father followed by
    his ancestors and the mother followed by hers; the recursion goes into
    the absent parents of his father, where the Individual check raises. *)
Lemma get_ancestors_raises :
  (get_parents (Some 12%nat) example_state).1 = Ok (Some 2%nat, Some 5%nat) ∧
  (get_ancestors 1000 (Some 12%nat) example_state).1
    = Raise NotAnActualIndividualError ∧
  ∀ AF AM,
    (get_ancestors 1000 (Some 12%nat) example_state).1
    ≠ Ok ([Some 2%nat] ++ AF ++ [Some 5%nat] ++ AM).
Proof.
  assert ((get_ancestors 1000 (Some 12%nat) example_state).1
          = Raise NotAnActualIndividualError) as Hraise.
  { vm_compute. reflexivity. }
  split_and!; [vm_compute; reflexivity|exact Hraise|].
  intros AF AM. by rewrite Hraise.
Qed.

(** C7 at the failing input: Jane is Jim's mother, but the search from Jim
    to Jane tries the father first and raises at John's absent father. *)
Lemma find_path_to_mother_raises :
  (get_parents (Some 12%nat) example_state).1 = Ok (Some 2%nat, Some 5%nat) ∧
  (get_parents (Some 2%nat) example_state).1 = Ok (None, None) ∧
  (find_path_to_ancestor 1000 (Some 12%nat) (Some 5%nat) None example_state).1
    = Raise NotAnActualIndividualError.
Proof. vm_compute. by split_and!. Qed.

(** C3, as stated, fails: the marriage event has the dates 1 JAN 1900 and
    2 FEB 1901, in this order, and the pair carries the second one. *)
Lemma get_marriages_second_date :
  (get_value <$>
     from_option (λ m, children_with_tag (heap marriage_state) m GEDCOM_TAG_DATE)
                 [] (heap marriage_state !! 6%nat))
    = [py "1 JAN 1900"; py "2 FEB 1901"] ∧
  (get_marriages (Some 2%nat) marriage_state).1
    = Ok [(py "2 FEB 1901", py "Paris")] ∧
  py "2 FEB 1901" ≠ py "1 JAN 1900".
Proof. vm_compute. by split_and!. Qed.

Lemma get_marriages_last_wins_witness :
  ∃ ind,
    as_individual (heap marriage_state) (Some 2%nat) = Some ind ∧
    get_marriages (Some 2%nat) marriage_state
      = (Ok (marriages_of marriage_state ind), cached marriage_state).
Proof.
  eexists. split.
  - vm_compute. reflexivity.
  - apply get_marriages_last_wins.
    + eexists. vm_compute. reflexivity.
    + vm_compute. reflexivity.
Defined.

(** C6, as stated, fails: the remainder after the tag is " abc  "; the
    value stored is "abc", not the remainder less one leading space. *)
Lemma value_loses_trailing_spaces :
  let line := py "0 NOTE abc  " ++ [LF] in
  let r := parse_line 1 line 0 true Parser__init__ in
  re_match gedcom_line_regex line
    = Some [py "0"; []; py "NOTE"; py " abc  "; [LF]] ∧
  r.1 = Ok 1%nat ∧
  (get_value <$> heap r.2 !! 1%nat) = Some (py "abc") ∧
  py "abc" ≠ drop 1 (py " abc  ").
Proof. vm_compute. by split_and!. Qed.

Lemma primary_value_stripped_witness :
  ∃ lvl ptr tag rem eol rest e st',
    py "0 NOTE abc  " ++ [LF] = lvl ++ SPACE :: ptr ++ tag ++ rem ++ eol ++ rest ∧
    Forall (λ x, is_digit x = true) lvl ∧
    (ptr = [] ∨ ∃ id, ptr = 64%N :: id ++ [64%N; SPACE]
                      ∧ Forall (λ x, is_not_at x = true) id) ∧
    (tag ≠ [] ∧ Forall (λ x, is_tag_char x = true) tag) ∧
    (Forall (λ x, is_eol x = false) rem ∧ (rem = [] ∨ ∃ v, rem = SPACE :: v)) ∧
    (eol ≠ [] ∧ Forall (λ x, is_eol x = true) eol) ∧
    parse_line 1 (py "0 NOTE abc  " ++ [LF]) 0 true Parser__init__
      = (Ok (length (heap Parser__init__)), st') ∧
    heap st' !! length (heap Parser__init__) = Some e ∧
    get_tag e = tag ∧
    get_value e = PyStr.strip rem.
Proof.
  eapply (primary_value_stripped 1 (py "0 NOTE abc  " ++ [LF]) 0 true
            Parser__init__).
  - exact (wf_tree_fresh_root []).
  - simpl. lia.
  - vm_compute. reflexivity.
  - vm_compute. reflexivity.
  - vm_compute. reflexivity.
  - vm_compute. discriminate.
Defined.

(** C5, as stated, fails: the text of the line is "  more text " and the
    value of the concatenation element built below the previous element is
    "more text". *)
Lemma continuation_value_is_stripped :
  let line := py "  more text " ++ [LF] in
  let r := parse_line 3 line 3 false header_state in
  re_match last_line_regex line = None ∧
  r.1 = Ok 4%nat ∧
  (get_tag <$> heap r.2 !! 4%nat) = Some GEDCOM_TAG_CONCATENATION ∧
  (get_parent_element <$> heap r.2 !! 4%nat) = Some (Some 3%nat) ∧
  (get_value <$> heap r.2 !! 4%nat) = Some (py "more text") ∧
  py "more text" ≠ py "  more text ".
Proof. vm_compute. by split_and!. Qed.

Lemma continuation_line_witness :
  ∃ prev e st',
    heap header_state !! 3%nat = Some prev ∧
    parse_line 3 (py "  more text " ++ [LF]) 3 false header_state
      = (Ok (length (heap header_state)), st') ∧
    heap st' !! length (heap header_state) = Some e ∧
    get_value e = PyStr.strip (py "  more text ") ∧
    if decide (get_tag prev = GEDCOM_TAG_CONTINUED
               ∨ get_tag prev = GEDCOM_TAG_CONCATENATION)
    then get_level e = get_level prev ∧ get_tag e = get_tag prev
    else get_level e = get_level prev + 1 ∧
         get_tag e = GEDCOM_TAG_CONCATENATION ∧
         get_parent_element e = Some 3%nat ∧
         ∃ last', heap st' !! 3%nat = Some last' ∧
                  last (get_child_elements last')
                  = Some (length (heap header_state)).
Proof.
  assert (heap header_state !! 3%nat
          = Some (mkElement 1 (Some []) (py "SOUR") (py "X") [LF] []
                            (Some 2%nat))) as Hprev.
  { vm_compute. reflexivity. }
  destruct (continuation_line 3 (py "  more text ") LF [] 3 header_state
              (mkElement 1 (Some []) (py "SOUR") (py "X") [LF] [] (Some 2%nat))
              (parse_wf _ _ _ _ header_state_parse)) as (e & st' & H).
  - vm_compute. lia.
  - exact Hprev.
  - repeat constructor.
  - reflexivity.
  - vm_compute. reflexivity.
  - eexists _, e, st'. split; [exact Hprev|exact H].
Defined.


(** * Further properties of the code *)

(** ** What one line and one parse change *)

(** On a well-formed tree [parse_line] raises only before it has built
    anything. *)
Lemma parse_line_Raise_state line_number line last_element strict st e st' :
  wf_tree (heap st) (root_element st) →
  (root_element st ≤ last_element)%nat →
  parse_line line_number line last_element strict st = (Raise e, st') →
  st' = st.
Proof.
  intros Hwf Hrl.
  destruct (heap st !! last_element) as [last|] eqn:Hlast.
  2: { unfold parse_line, bind, deref. step_m. rewrite Hlast. by intros [= _ <-]. }
  destruct (line_fields line_number line last strict)
    as [[[[[level pointer] tag] value] crlf]|e'] eqn:Hfields.
  2: { unfold parse_line, bind, deref. step_m. rewrite Hlast, Hfields.
       by intros [= _ <-]. }
  destruct (Z.gtb_spec level (get_level last + 1)) as [Hgt|Hle].
  - unfold parse_line, bind, deref. step_m. rewrite Hlast, Hfields.
    destruct (Z.gtb_spec level (get_level last + 1)); [|lia].
    by intros [= _ <-].
  - destruct (parse_line_attach _ _ _ _ _ _ _ _ _ _ _ Hwf Hrl Hlast Hfields Hle)
      as (p & pe & _ & _ & _ & _ & Heq).
    by rewrite Heq.
Qed.

(** X1. An accepted line allocates exactly one element, at the end of the
    heap, and returns it.  The caches and the root stay.  Exactly one older
    element changes: the parent, which lies between the root and the
    previous element and is one level above the new element, and which
    gets the new element appended as its last child, all its other fields
    being kept.  The new element has this parent and no children; every
    other element is the same object as before. *)
Theorem parse_line_allocates_one (line_number : nat) (line : str)
    (last_element : eid) (strict : bool) (st st' : State) (element : eid) :
  wf_tree (heap st) (root_element st) →
  (root_element st ≤ last_element)%nat →
  parse_line line_number line last_element strict st = (Ok element, st') →
  element = length (heap st) ∧
  length (heap st') = S (length (heap st)) ∧
  root_element st' = root_element st ∧
  element_list st' = element_list st ∧
  element_dictionary st' = element_dictionary st ∧
  ∃ p pe pe' e,
    (root_element st ≤ p ≤ last_element)%nat ∧
    heap st !! p = Some pe ∧
    heap st' !! p = Some pe' ∧
    get_child_elements pe' = get_child_elements pe ++ [element] ∧
    get_level pe' = get_level pe ∧ get_pointer pe' = get_pointer pe ∧
    get_tag pe' = get_tag pe ∧ get_value pe' = get_value pe ∧
    get_crlf pe' = get_crlf pe ∧
    get_parent_element pe' = get_parent_element pe ∧
    heap st' !! element = Some e ∧
    get_parent_element e = Some p ∧
    get_child_elements e = [] ∧
    get_level e = get_level pe + 1 ∧
    ∀ i, i ≠ p → i ≠ element → heap st' !! i = heap st !! i.
Proof.
  intros Hwf Hrl Hok.
  destruct (parse_line_Ok_inv _ _ _ _ _ _ _ Hok)
    as (last & level & pointer & tag & value & crlf & Hlast & Hfields & Hle).
  destruct (parse_line_attach _ _ _ _ _ _ _ _ _ _ _ Hwf Hrl Hlast Hfields Hle)
    as (p & pe & Hrange & Hpe & Hlevel & _ & Heq).
  rewrite Heq in Hok. injection Hok as <- <-. simpl.
  pose proof (lookup_lt_Some _ _ _ Hpe) as Hplt.
  destruct (attach_new_element (heap st) p pe
              (new_element level pointer tag value crlf) Hplt) as [Hnew Hpar].
  split_and!; [done|apply length_attach|done..|].
  exists p, pe, (with_child pe (length (heap st))),
    (with_parent (new_element level pointer tag value crlf) p).
  split_and!; [lia|lia|done|done|done|done|done|done|done|done|done|done|done
               |done|simpl; lia|].
  intros i Hip Hie. rewrite lookup_attach by done.
  by rewrite !decide_False by done.
Qed.

Lemma parse_line_Ok_frame line_number line last_element strict st element st' :
  wf_tree (heap st) (root_element st) →
  (root_element st ≤ last_element)%nat →
  parse_line line_number line last_element strict st = (Ok element, st') →
  root_element st' = root_element st ∧
  element_list st' = element_list st ∧
  element_dictionary st' = element_dictionary st ∧
  ∀ i e, heap st !! i = Some e →
    ∃ e1, heap st' !! i = Some e1 ∧ get_level e1 = get_level e ∧
          get_parent_element e1 = get_parent_element e ∧
          ((i < root_element st)%nat → e1 = e).
Proof.
  intros Hwf Hrl Hline.
  destruct (parse_line_Ok_inv _ _ _ _ _ _ _ Hline)
    as (last & level & pointer & tag & value & crlf & Hlast & Hfields & Hle).
  destruct (parse_line_attach _ _ _ _ _ _ _ _ _ _ _ Hwf Hrl Hlast Hfields Hle)
    as (p & pe & Hrange & Hpe & _ & _ & Heq).
  rewrite Heq in Hline. injection Hline as <- <-. simpl.
  split_and!; [done..|]. intros i e He.
  pose proof (lookup_lt_Some _ _ _ Hpe).
  pose proof (lookup_lt_Some _ _ _ He).
  rewrite lookup_attach by done. rewrite decide_False by lia.
  destruct (decide (i = p)) as [->|].
  - rewrite Hpe in He. injection He as <-. eexists. split_and!; [done..|lia].
  - exists e. by split_and!.
Qed.

Lemma parse_lines_frame lines : ∀ line_number last_element strict st res st',
  wf_tree (heap st) (root_element st) →
  (root_element st ≤ last_element)%nat →
  parse_lines line_number lines last_element strict st = (res, st') →
  root_element st' = root_element st ∧
  element_list st' = element_list st ∧
  element_dictionary st' = element_dictionary st ∧
  (∀ i, (i ≤ root_element st)%nat → is_Some (heap st !! i) →
        ∃ e e', heap st !! i = Some e ∧ heap st' !! i = Some e' ∧
                get_level e' = get_level e ∧
                get_parent_element e' = get_parent_element e ∧
                ((i < root_element st)%nat → e' = e)).
Proof.
  induction lines as [|line lines IH];
    intros line_number last_element strict st res st' Hwf Hrl; simpl.
  - unfold ret. intros [= _ <-]. split_and!; [done..|].
    intros i _ [e He]. exists e, e. by split_and!.
  - unfold bind.
    destruct (parse_line line_number line last_element strict st)
      as [[element|e] st1] eqn:Hline.
    + intros Hrest.
      destruct (parse_line_wf _ _ _ _ _ _ _ Hwf Hrl Hline) as [Hwf1 Hrl1].
      destruct (parse_line_Ok_frame _ _ _ _ _ _ _ Hwf Hrl Hline)
        as (Hr1 & Hl1 & Hd1 & Hold1).
      destruct (IH _ _ _ _ _ _ Hwf1 Hrl1 Hrest) as (Hr2 & Hl2 & Hd2 & Hold2).
      split_and!; [congruence..|].
      intros i Hi [e He].
      destruct (Hold1 i e He) as (e1 & He1 & ? & ? & Hsame1).
      destruct (Hold2 i ltac:(lia) (mk_is_Some _ _ He1))
        as (e1' & e2 & He1' & He2 & ? & ? & Hsame2).
      rewrite He1 in He1'. injection He1' as <-.
      exists e, e2. split_and!; [done|done|congruence|congruence|].
      intros Hlt. rewrite Hsame2 by lia. by apply Hsame1.
    + intros [= <- <-].
      rewrite (parse_line_Raise_state _ _ _ _ _ _ _ Hwf Hrl Hline).
      split_and!; [done..|].
      intros i _ [e' He']. exists e', e'. by split_and!.
Qed.

Lemma parse_unfold string strict st :
  parse string strict st =
  match parse_lines 1 (PyStr.split LF (PyStr.strip string))
          (length (heap st)) strict (fresh_document st) with
  | (Ok _, st1) => (Ok (), st1)
  | (Raise e, st1) => (Raise e, st1)
  end.
Proof. done. Qed.

(** X2. Whatever its outcome, [parse] replaces the document and mutates
    nothing of the old one: the root of the parser is a new element at the
    end of the old heap, at level -1 and without parent, both caches are
    empty, and every element that existed before the call is unchanged. *)
Theorem parse_replaces_document (string : str) (strict : bool) (st : State) :
  root_element (parse string strict st).2 = length (heap st) ∧
  element_list (parse string strict st).2 = [] ∧
  element_dictionary (parse string strict st).2 = ∅ ∧
  (∃ root, heap (parse string strict st).2 !! length (heap st) = Some root
           ∧ get_level root = -1 ∧ get_parent_element root = None) ∧
  ∀ i e, heap st !! i = Some e → heap (parse string strict st).2 !! i = Some e.
Proof.
  rewrite parse_unfold.
  destruct (parse_lines 1 _ _ _ _) as [res st1] eqn:Hlines.
  destruct (parse_lines_frame _ _ _ _ (fresh_document st) _ _
              (wf_tree_fresh_root (heap st)) (le_n _) Hlines)
    as (Hr & Hl & Hd & Hold).
  simpl in Hr, Hl, Hd, Hold.
  assert (root_element st1 = length (heap st) ∧ element_list st1 = [] ∧
          element_dictionary st1 = ∅ ∧
          (∃ root, heap st1 !! length (heap st) = Some root
                   ∧ get_level root = -1 ∧ get_parent_element root = None) ∧
          ∀ i e, heap st !! i = Some e → heap st1 !! i = Some e) as Hall.
  { split_and!; [done..| |].
    - destruct (Hold (length (heap st)) (le_n _)) as (e & e' & He & He' & ? & ? & _).
      { rewrite list_lookup_middle by done. by eexists. }
      rewrite list_lookup_middle in He by done. injection He as <-.
      exists e'. by split_and!.
    - intros i e He. pose proof (lookup_lt_Some _ _ _ He) as Hlt.
      destruct (Hold i ltac:(lia)) as (e0 & e' & He0 & He' & _ & _ & Hsame).
      { rewrite lookup_app_l by done. by eexists. }
      rewrite lookup_app_l in He0 by done.
      rewrite He' , (Hsame Hlt). congruence. }
  by destruct res.
Qed.

Lemma parse_lines_app lines1 : ∀ line_number lines2 last_element strict st,
  parse_lines line_number (lines1 ++ lines2) last_element strict st =
  (last_element' <- parse_lines line_number lines1 last_element strict;;
   parse_lines (line_number + length lines1) lines2 last_element' strict) st.
Proof.
  induction lines1 as [|line lines1 IH];
    intros line_number lines2 last_element strict st; simpl.
  - unfold bind, ret. by rewrite Nat.add_0_r.
  - unfold bind.
    destruct (parse_line line_number line last_element strict st)
      as [[element|e] st1]; [|done].
    rewrite IH. unfold bind.
    by replace (S line_number + length lines1)%nat
      with (line_number + S (length lines1))%nat by lia.
Qed.

(** ** Lines that no grammar accepts *)

Lemma cont_line_has_eol line g :
  re_match cont_line_regex line = Some g → ∃ x, x ∈ line ∧ is_eol x = true.
Proof.
  intros (c & Hc & _)%re_match_Some. unfold cont_line_regex in Hc.
  apply elem_of_run_Seq in Hc as (c1 & c2 & H1 & H2 & _).
  apply elem_of_run_end_of_line in H2 as (x & s' & Hs & Hx & _).
  exists x. split; [|done].
  apply run_consumes in H1. rewrite H1, Hs.
  apply elem_of_app. right. by left.
Qed.

Lemma no_eol_cont_line_None line :
  (∀ x, x ∈ line → is_eol x = false) → re_match cont_line_regex line = None.
Proof.
  intros Hline.
  destruct (re_match cont_line_regex line) as [g|] eqn:Hm; [|done].
  apply cont_line_has_eol in Hm as (x & Hx & Heol).
  rewrite (Hline x Hx) in Heol. done.
Qed.

(** X3. In lenient mode a line that carries neither a level and a tag nor
    a carriage return or line feed is not recovered: the continuation
    pattern does not match either, and [parse_line] raises
    [AttributeError] (a method call on [None]), not
    [GedcomFormatViolationError].  Nothing is built. *)
Theorem parse_line_lenient_unterminated (line_number : nat) (line : str)
    (last_element : eid) (st : State) :
  is_Some (heap st !! last_element) →
  re_match last_line_regex line = None →
  (∀ x, x ∈ line → is_eol x = false) →
  parse_line line_number line last_element false st
    = (Raise AttributeError, st).
Proof.
  intros [prev Hprev] Hnone Hline.
  unfold parse_line, bind, deref, line_fields. step_m.
  by rewrite Hprev, (last_line_None_gedcom_line_None _ Hnone), Hnone,
    (no_eol_cont_line_None _ Hline).
Qed.

(** X4. An empty string, or one made of white space only, is one empty
    line for [parse]: strict mode raises the format violation of line 1,
    lenient mode raises [AttributeError].  The parser is left with a new
    empty document. *)
Theorem parse_blank_input (string : str) (strict : bool) (st : State) :
  PyStr.strip string = [] →
  parse string strict st =
    (Raise (if strict then GedcomFormatViolationError 1 (Some [])
            else AttributeError),
     fresh_document st).
Proof.
  intros Hblank. rewrite parse_unfold, Hblank. cbn [PyStr.split parse_lines].
  unfold bind.
  assert (heap (fresh_document st) !! length (heap st) = Some RootElement)
    as Hroot by (simpl; by apply list_lookup_middle).
  destruct strict.
  - by rewrite (parse_line_strict_violation 1 [] _ _ _ Hroot eq_refl).
  - unfold parse_line, bind, deref, line_fields. step_m.
    by rewrite list_lookup_middle.
Qed.

(** ** Strict mode *)

Lemma split_no_separator sep (s : str) :
  Forall (λ l, sep ∉ l) (PyStr.split sep s).
Proof.
  induction s as [|c s IH]; simpl.
  - constructor; [|done]. by intros ?%elem_of_nil.
  - destruct (N.eqb_spec c sep) as [->|Hne].
    + constructor; [|done]. by intros ?%elem_of_nil.
    + destruct (PyStr.split sep s) as [|l ls].
      { constructor; [|done]. rewrite list_elem_of_singleton. congruence. }
      inversion IH as [|? ? Hl Hls]; subst. constructor; [|done].
      rewrite elem_of_cons. intros [?|?]; [congruence|done].
Qed.

Lemma parse_lines_strict_Ok lines : ∀ line_number last_element st element st',
  parse_lines line_number lines last_element true st = (Ok element, st') →
  Forall (λ line, is_Some (re_match gedcom_line_regex line)) lines.
Proof.
  induction lines as [|line lines IH];
    intros line_number last_element st element st'; simpl; [done|].
  intros (e1 & st1 & Hline & Hrest)%bind_inv_Ok.
  constructor; [|by eapply IH].
  apply parse_line_Ok_inv in Hline
    as (prev & level & pointer & tag & value & crlf & _ & Hfields & _).
  unfold line_fields in Hfields.
  by destruct (re_match gedcom_line_regex line).
Qed.

(** X5. [parse] in strict mode succeeds only if every piece of the string
    between two line feeds still contains a carriage return: the line
    feeds are removed by [split], the terminator that ends the stripped
    string is removed by [strip], and the primary grammar needs one. *)
Theorem parse_strict_needs_carriage_return (string : str) (st st' : State) :
  parse string true st = (Ok (), st') →
  Forall (λ line, CR ∈ line) (PyStr.split LF (PyStr.strip string)).
Proof.
  rewrite parse_unfold.
  destruct (parse_lines 1 _ _ _ _) as [[element|e] st1] eqn:Hlines; [|done].
  intros _. apply parse_lines_strict_Ok in Hlines.
  pose proof (split_no_separator LF (PyStr.strip string)) as Hsplit.
  revert Hlines Hsplit. generalize (PyStr.split LF (PyStr.strip string)).
  induction 1 as [|line lines [g Hg] _ IH]; [done|].
  intros Hsplit. inversion Hsplit as [|? ? Hlf Hrest]; subst.
  constructor; [|by apply IH].
  apply gedcom_line_has_eol in Hg as (x & Hx & Heol).
  apply is_eol_spec in Heol as [-> | ->]; done.
Qed.

(** ** The pointer index *)

Lemma build_dictionary_snoc h records i :
  build_dictionary h (records ++ [i]) =
  match h !! i with
  | Some e =>
      match get_pointer e with
      | Some (c :: p) => <[c :: p := i]> (build_dictionary h records)
      | _ => build_dictionary h records
      end
  | None => build_dictionary h records
  end.
Proof. unfold build_dictionary. by rewrite foldl_snoc. Qed.

Lemma build_dictionary_lookup h records pointer :
  build_dictionary h records !! pointer =
  if decide (pointer = []) then None
  else last (records_with_pointer h records pointer).
Proof.
  induction records as [|i records IH] using rev_ind.
  - unfold build_dictionary. simpl. rewrite lookup_empty. by case_decide.
  - rewrite build_dictionary_snoc. unfold records_with_pointer in *.
    rewrite filter_app, filter_cons, filter_nil.
    destruct (h !! i) as [e|] eqn:He; simpl.
    2: { rewrite IH. by rewrite (right_id_L [] (++)). }
    destruct (get_pointer e) as [[|c p]|] eqn:Hp.
    + rewrite IH. case_decide as Hnil; [done|].
      rewrite decide_False by congruence. by rewrite (right_id_L [] (++)).
    + destruct (decide (c :: p = pointer)) as [<-|Hne].
      * rewrite lookup_insert_eq, decide_False by done.
        rewrite decide_True by done. by rewrite last_snoc.
      * rewrite lookup_insert_ne by done. rewrite IH.
        case_decide; [done|].
        rewrite decide_False by congruence.
        by rewrite (right_id_L [] (++)).
    + rewrite IH. case_decide; [done|]. rewrite decide_False by done.
      by rewrite (right_id_L [] (++)).
Qed.

(** X6. With an empty cache (as [parse] and [invalidate_cache] leave it),
    [get_element_by_pointer] never raises: it returns the last top-level
    record that declares the pointer, and [None] when no top-level record
    declares it or when the pointer is the empty string.  An element it
    returns is a child of the root and carries the pointer. *)
Theorem get_element_by_pointer_last_record (st : State) (root : Element)
    (pointer : str) :
  heap st !! root_element st = Some root →
  element_dictionary st = ∅ →
  get_element_by_pointer pointer st =
    (Ok (if decide (pointer = []) then None
         else last (records_with_pointer (heap st) (get_child_elements root)
                      pointer)),
     cached st) ∧
  ∀ i, (get_element_by_pointer pointer st).1 = Ok (Some i) →
       i ∈ get_child_elements root ∧
       (get_pointer <$> heap st !! i) = Some (Some pointer).
Proof.
  intros Hroot Hempty.
  assert (get_element_by_pointer pointer st =
          (Ok (if decide (pointer = []) then None
               else last (records_with_pointer (heap st)
                            (get_child_elements root) pointer)),
           cached st)) as Heq.
  { rewrite get_element_by_pointer_spec by (by eexists).
    unfold dictionary_of. rewrite decide_True by done. rewrite Hroot. simpl.
    by rewrite build_dictionary_lookup. }
  split; [done|]. rewrite Heq. simpl. intros i [= Hi].
  case_decide; [done|].
  apply last_Some_elem_of in Hi. unfold records_with_pointer in Hi.
  by apply list_elem_of_filter in Hi as [? ?].
Qed.

(** ** Parents and paths *)

Lemma as_individual_Some h i e :
  as_individual h (Some i) = Some e →
  h !! i = Some e ∧ get_tag e = GEDCOM_TAG_INDIVIDUAL.
Proof.
  unfold as_individual. simpl. destruct (h !! i) as [e'|]; simpl; [|done].
  case_bool_decide; [|done]. by intros [= <-].
Qed.

Lemma get_parents_spec st x ind :
  is_Some (heap st !! root_element st) →
  as_individual (heap st) x = Some ind →
  get_parents x st =
    (Ok (parents_of st ind),
     if is_child_in_a_family (heap st) ind then cached st else st).
Proof.
  intros Hroot Hind. unfold get_parents, parents_of. unfold bind at 1.
  step_m. rewrite Hind.
  destruct (is_child_in_a_family (heap st) ind) eqn:Hchild; simpl; [|done].
  rewrite (bind_Ok _ _ _ _ _ (get_element_by_pointer_spec st _ Hroot)).
  destruct (as_family _ _) as [fam|] eqn:Hfam; [|done].
  assert (is_Some (heap (cached st) !! root_element (cached st))) as Hroot1 by done.
  assert (is_Some (heap (cached (cached st)) !! root_element (cached (cached st))))
    as Hroot2 by done.
  destruct (has_husband (heap st) fam); destruct (has_wife (heap st) fam).
  - rewrite (bind_Ok _ _ _ _ _ (get_element_by_pointer_spec _ _ Hroot1)).
    rewrite (bind_Ok _ _ _ _ _ (get_element_by_pointer_spec _ _ Hroot2)).
    by rewrite !dictionary_of_cached, !cached_cached.
  - rewrite (bind_Ok _ _ _ _ _ (get_element_by_pointer_spec _ _ Hroot1)).
    by rewrite !dictionary_of_cached, !cached_cached.
  - unfold bind at 1. step_m.
    rewrite (bind_Ok _ _ _ _ _ (get_element_by_pointer_spec _ _ Hroot1)).
    by rewrite !dictionary_of_cached, !cached_cached.
  - done.
Qed.

Lemma same_view_facts st st1 :
  same_view st st1 →
  heap st1 = heap st ∧ root_element st1 = root_element st ∧
  dictionary_of st1 = dictionary_of st ∧ same_view st (cached st1).
Proof.
  intros [->| ->].
  - split_and!; [done..|by right].
  - split_and!; [done|done|apply dictionary_of_cached|].
    right. apply cached_cached.
Qed.

Lemma get_parents_same_view st st1 x ind :
  is_Some (heap st !! root_element st) →
  same_view st st1 →
  as_individual (heap st) x = Some ind →
  ∃ st2, get_parents x st1 = (Ok (parents_of st ind), st2) ∧ same_view st st2.
Proof.
  intros Hroot Hview Hind.
  destruct (same_view_facts _ _ Hview) as (Hh & Hr & Hd & Hc).
  assert (is_Some (heap st1 !! root_element st1)) as Hroot1 by (by rewrite Hh, Hr).
  assert (as_individual (heap st1) x = Some ind) as Hind1 by (by rewrite Hh).
  rewrite (get_parents_spec st1 x ind Hroot1 Hind1).
  assert (parents_of st1 ind = parents_of st ind) as ->.
  { unfold parents_of. by rewrite Hh, Hd. }
  eexists. split; [done|]. by destruct (is_child_in_a_family _ _).
Qed.

Lemma find_path_default_path depth descendant ancestor st :
  find_path_to_ancestor depth descendant ancestor None st =
  find_path_to_ancestor depth descendant ancestor (Some [descendant]) st.
Proof. by destruct depth. Qed.

Lemma find_path_paternal_gen (st : State) (a : eid) depth :
  is_Some (heap st !! root_element st) →
  ∀ st1 i l pre path st',
    same_view st st1 → l = pre ++ [Some i] →
    find_path_to_ancestor depth (Some i) (Some a) (Some l) st1
      = (Ok (Some path), st') →
    ∃ chain j ej anc,
      path = pre ++ chain ∧ paternal_line st i chain ∧
      last chain = Some (Some j) ∧ heap st !! j = Some ej ∧
      heap st !! a = Some anc ∧ get_pointer ej = get_pointer anc.
Proof.
  intros Hroot. induction depth as [|depth IH];
    intros st1 i l pre path st' Hview Hl; [done|].
  destruct (same_view_facts _ _ Hview) as (Hh & _ & _ & _).
  destruct l as [|y l']; [by destruct pre|].
  cbn [find_path_to_ancestor]. unfold bind at 1. step_m. rewrite Hh, Hl.
  destruct (as_individual (heap st) (Some i)) as [ind|] eqn:Hind; [|done].
  destruct (as_individual (heap st) (Some a)) as [anc|] eqn:Hanc; [|done].
  apply as_individual_Some in Hanc as [Hanc _].
  pose proof (as_individual_Some _ _ _ Hind) as [Hi _].
  rewrite last_snoc. simpl. rewrite Hi.
  case_bool_decide as Hptr.
  - unfold ret. intros [= <- <-].
    exists [Some i], i, ind, anc. split_and!; [done|constructor|done..].
  - destruct (get_parents_same_view st st1 (Some i) ind Hroot Hview Hind)
      as (st2 & Hparents & Hview2).
    rewrite (bind_Ok _ _ _ _ _ Hparents). cbn [first_found]. unfold bind at 1.
    destruct (parents_of st ind).1 as [f|] eqn:Hf.
    2: { destruct depth; [done|]. cbn [find_path_to_ancestor].
         unfold bind at 1. step_m. done. }
    destruct (find_path_to_ancestor depth (Some f) (Some a) _ st2)
      as [[[p|]|e] st3] eqn:Hrec; [|by apply find_path_never_not_found in Hrec|done].
    unfold ret. intros [= <- <-].
    assert (y :: l' ++ [Some f] = (pre ++ [Some i]) ++ [Some f]) as Hl2.
    { by rewrite <- Hl. }
    destruct (IH st2 f _ (pre ++ [Some i]) p st3 Hview2 Hl2 Hrec)
      as (chain & j & ej & anc' & -> & Hchain & Hlast & Hj & Hanc' & Hp).
    exists (Some i :: chain), j, ej, anc'.
    split_and!; [by rewrite <- (assoc_L (++))|by econstructor| |done..].
    destruct chain; [done|]. by rewrite last_cons_cons.
Qed.

(** X7. A path that [find_path_to_ancestor] returns starts at the
    descendant, goes from every element to the father slot of its parents,
    and ends at an element with the pointer of the ancestor: the mother
    slot is never followed. *)
Theorem find_path_is_paternal_line (depth : nat) (st st' : State)
    (descendant ancestor : eid) (path : list (option eid)) :
  is_Some (heap st !! root_element st) →
  find_path_to_ancestor depth (Some descendant) (Some ancestor) None st
    = (Ok (Some path), st') →
  paternal_line st descendant path ∧
  ∃ j ej anc,
    last path = Some (Some j) ∧ heap st !! j = Some ej ∧
    heap st !! ancestor = Some anc ∧ get_pointer ej = get_pointer anc.
Proof.
  intros Hroot. rewrite find_path_default_path. intros Hfind.
  destruct (find_path_paternal_gen st ancestor depth Hroot st descendant
              [Some descendant] [] path st' (or_introl eq_refl) eq_refl Hfind)
    as (chain & j & ej & anc & -> & Hchain & Hlast & Hj & Hanc & Hp).
  split; [done|]. by exists j, ej, anc.
Qed.

Lemma find_path_along_fathers_gen (st : State) (a : eid) (anc : Element) :
  is_Some (heap st !! root_element st) →
  as_individual (heap st) (Some a) = Some anc →
  ∀ i chain, reaches st (get_pointer anc) i chain →
  ∀ depth st1 l pre,
    same_view st st1 → l = pre ++ [Some i] → (length chain ≤ depth)%nat →
    ∃ st2,
      find_path_to_ancestor depth (Some i) (Some a) (Some l) st1
        = (Ok (Some (pre ++ chain)), st2) ∧ same_view st st2.
Proof.
  intros Hroot Hanc i chain Hreach.
  induction Hreach as [i ind Hind Hptr|i ind f rest Hind Hptr Hf _ IH];
    intros depth st1 l pre Hview Hl Hdepth.
  - destruct depth as [|depth]; [simpl in Hdepth; lia|].
    destruct (same_view_facts _ _ Hview) as (Hh & _ & _ & _).
    destruct l as [|y l']; [by destruct pre|].
    cbn [find_path_to_ancestor]. unfold bind at 1. step_m.
    rewrite Hh, Hl, Hind, Hanc.
    pose proof (as_individual_Some _ _ _ Hind) as [Hi _].
    rewrite last_snoc. simpl. rewrite Hi.
    rewrite bool_decide_true by done. by exists st1.
  - destruct depth as [|depth]; [simpl in Hdepth; lia|].
    destruct (same_view_facts _ _ Hview) as (Hh & _ & _ & _).
    destruct l as [|y l']; [by destruct pre|].
    cbn [find_path_to_ancestor]. unfold bind at 1. step_m.
    rewrite Hh, Hind, Hanc.
    pose proof (as_individual_Some _ _ _ Hind) as [Hi _].
    assert (last (y :: l') = Some (Some i)) as ->
      by (rewrite Hl; apply last_snoc).
    simpl. rewrite Hi. rewrite bool_decide_false by done.
    destruct (get_parents_same_view st st1 (Some i) ind Hroot Hview Hind)
      as (st2 & Hparents & Hview2).
    rewrite (bind_Ok _ _ _ _ _ Hparents). cbn [first_found]. rewrite Hf.
    assert (y :: l' ++ [Some f] = (pre ++ [Some i]) ++ [Some f]) as Hl2.
    { by rewrite <- Hl. }
    destruct (IH depth st2 _ (pre ++ [Some i]) Hview2 Hl2) as (st3 & Hrec & Hview3).
    { simpl in Hdepth. lia. }
    rewrite (bind_Ok _ _ _ _ _ Hrec). exists st3. split; [|done].
    unfold ret. by rewrite <- (assoc_L (++)).
Qed.

(** X8. When the line of fathers that starts at the descendant reaches an
    element with the pointer of the ancestor, [find_path_to_ancestor]
    returns that line, up to the first such element, provided the
    interpreter allows as many nested calls as the line is long. *)
Theorem find_path_along_fathers (depth : nat) (st : State)
    (descendant ancestor : eid) (anc : Element) (chain : list (option eid)) :
  is_Some (heap st !! root_element st) →
  as_individual (heap st) (Some ancestor) = Some anc →
  reaches st (get_pointer anc) descendant chain →
  (length chain ≤ depth)%nat →
  (find_path_to_ancestor depth (Some descendant) (Some ancestor) None st).1
    = Ok (Some chain).
Proof.
  intros Hroot Hanc Hreach Hdepth. rewrite find_path_default_path.
  destruct (find_path_along_fathers_gen st ancestor anc Hroot Hanc descendant
              chain Hreach depth st [Some descendant] []
              (or_introl eq_refl) eq_refl Hdepth) as (st2 & Heq & _).
  by rewrite Heq.
Qed.

(** ** Children and descendants *)

Lemma extend_each_same_state {A B} (f : A → M (list B)) (g : A → list B)
    (s : State) xs :
  (∀ x, x ∈ xs → f x s = (Ok (g x), s)) →
  ∀ acc, extend_each f xs acc s = (Ok (acc ++ xs ≫= g), s).
Proof.
  induction xs as [|x xs IH]; intros Hf acc; simpl.
  - unfold ret. by rewrite (right_id_L [] (++)).
  - rewrite (bind_Ok _ _ _ _ _ (Hf x ltac:(by left))).
    rewrite IH by (intros; apply Hf; by right).
    by rewrite <- (assoc_L (++)).
Qed.

Lemma list_bind_twice {A B C} (f : A → list B) (g : B → list C) (l : list A) :
  (l ≫= f) ≫= g = l ≫= (λ x, f x ≫= g).
Proof.
  induction l as [|x l IH]; [done|]. by rewrite !bind_cons, bind_app, IH.
Qed.

Lemma get_element_by_pointer_cached st pointer :
  is_Some (heap st !! root_element st) →
  get_element_by_pointer pointer (cached st)
    = (Ok (dictionary_of st !! pointer), cached st).
Proof.
  intros Hroot.
  rewrite get_element_by_pointer_spec by done.
  by rewrite dictionary_of_cached, cached_cached.
Qed.

Lemma bind_resolved_individuals st pointers :
  pointers ≫= (λ pointer,
     match dictionary_of st !! pointer with
     | Some c => match as_individual (heap st) (Some c) with
                 | Some _ => [c]
                 | None => []
                 end
     | None => []
     end)
  = filter (λ c, is_Some (as_individual (heap st) (Some c)))
           (omap (λ pointer, dictionary_of st !! pointer) pointers).
Proof.
  induction pointers as [|pointer pointers IH]; [done|].
  rewrite bind_cons, IH. simpl.
  destruct (dictionary_of st !! pointer) as [c|]; [|done].
  rewrite filter_cons.
  destruct (as_individual (heap st) (Some c)) as [e|] eqn:Hc.
  - by rewrite decide_True by (by eexists).
  - rewrite decide_False; [done|]. by intros [? ?].
Qed.

(** X9. For an Individual whose spouse links resolve to families,
    [get_children] returns, family by family in source order, the
    elements that the children pointers of the family resolve to, leaving
    out the pointers that resolve to nothing or to an element that is
    not an Individual.  The call leaves the dictionary cached. *)
Theorem get_children_in_family_order (st : State) (individual : eid)
    (ind : Element) :
  is_Some (heap st !! root_element st) →
  as_individual (heap st) (Some individual) = Some ind →
  Forall (λ family, is_Some (as_family (heap st) (Some family)))
         (spouse_families st ind) →
  get_children (Some individual) st = (Ok (children_of st ind), cached st).
Proof.
  intros Hroot Hind Hfams. unfold get_children. unfold bind at 1. step_m.
  rewrite Hind.
  rewrite (bind_Ok _ _ _ _ _ (get_families_spec st individual ind _ Hroot Hind)).
  fold (spouse_families st ind).
  rewrite (extend_each_same_state _ (children_in st)); [done|].
  intros family Hfamily. rewrite Forall_forall in Hfams.
  destruct (Hfams family Hfamily) as [fam Hfam].
  unfold children_in. rewrite Hfam.
  rewrite (extend_each_same_state _
             (λ pointer, match dictionary_of st !! pointer with
                         | Some c => match as_individual (heap st) (Some c) with
                                     | Some _ => [c]
                                     | None => []
                                     end
                         | None => []
                         end)).
  - by rewrite bind_resolved_individuals.
  - intros pointer _. unfold individual_child.
    rewrite (bind_Ok _ _ _ _ _ (get_element_by_pointer_cached st pointer Hroot)).
    destruct (dictionary_of st !! pointer) as [c|]; [|done].
    by destruct (as_individual (heap st) (Some c)).
Qed.

(** X10. [get_descendants] is a pre-order walk: for an Individual whose
    spouse links resolve to families, if the recursive call returns the
    list [D c] for every child [c], the result is, child by child in the
    order of [get_children], the child followed by [D c]. *)
Theorem get_descendants_preorder (depth : nat) (st : State) (individual : eid)
    (ind : Element) (D : eid → list eid) :
  is_Some (heap st !! root_element st) →
  as_individual (heap st) (Some individual) = Some ind →
  Forall (λ family, is_Some (as_family (heap st) (Some family)))
         (spouse_families st ind) →
  (∀ c, c ∈ children_of st ind →
        get_descendants depth (Some c) (cached st) = (Ok (D c), cached st)) →
  get_descendants (S depth) (Some individual) st
    = (Ok (children_of st ind ≫= λ c, c :: D c), cached st).
Proof.
  intros Hroot Hind Hfams HD. cbn [get_descendants]. unfold bind at 1. step_m.
  rewrite Hind.
  rewrite (bind_Ok _ _ _ _ _ (get_families_spec st individual ind _ Hroot Hind)).
  fold (spouse_families st ind).
  rewrite (extend_each_same_state _ (λ family, children_in st family ≫= λ c, c :: D c)).
  { unfold children_of. by rewrite list_bind_twice. }
  intros family Hfamily. rewrite Forall_forall in Hfams.
  destruct (Hfams family Hfamily) as [fam Hfam]. rewrite Hfam.
  assert (∀ c, c ∈ children_in st family → c ∈ children_of st ind) as Hin.
  { intros c Hc. unfold children_of. apply list_elem_of_bind. eauto. }
  revert Hin. unfold children_in. rewrite Hfam.
  rewrite <- bind_resolved_individuals. intros Hin.
  rewrite (extend_each_same_state _
             (λ pointer, match dictionary_of st !! pointer with
                         | Some c => match as_individual (heap st) (Some c) with
                                     | Some _ => c :: D c
                                     | None => []
                                     end
                         | None => []
                         end)).
  - simpl. f_equal. f_equal.
    induction (get_children_pointers (heap st) fam) as [|pointer pointers IH];
      [done|].
    rewrite !bind_cons, bind_app, IH by (intros; apply Hin; rewrite bind_cons;
      apply elem_of_app; by right).
    f_equal. destruct (dictionary_of st !! pointer) as [c|]; [|done].
    destruct (as_individual (heap st) (Some c)); [|done].
    simpl. by rewrite (right_id_L [] (++)).
  - intros pointer Hpointer.
    rewrite (bind_Ok _ _ _ _ _ (get_element_by_pointer_cached st pointer Hroot)).
    destruct (dictionary_of st !! pointer) as [c|] eqn:Hc; [|done].
    destruct (as_individual (heap st) (Some c)) eqn:Hic; [|done].
    assert (c ∈ children_of st ind) as Hcin.
    { apply Hin. apply list_elem_of_bind. exists pointer. split; [|done].
      rewrite Hc, Hic. by left. }
    by rewrite (bind_Ok _ _ _ _ _ (HD c Hcin)).
Qed.

(** ** The flat list is in document order *)

Lemma tree_forest_bounds h :
  (∀ i j, tree_at h i j → (i < j)%nat) ∧
  (∀ cs a b, forest_at h cs a b →
     (a ≤ b)%nat ∧ ∀ c, c ∈ cs → (a ≤ c < b)%nat).
Proof.
  apply tree_forest_ind.
  - intros i e j _ _ [Hle _]. lia.
  - intros i. split; [done|]. by intros c ?%elem_of_nil.
  - intros c cs j k _ Hcj _ [Hjk Hcs]. split; [lia|].
    intros c' [->|Hc']%elem_of_cons; [lia|]. specialize (Hcs c' Hc'). lia.
Qed.

Lemma tree_forest_frame h :
  (∀ i j, tree_at h i j →
     ∀ h', (∀ x, (i ≤ x < j)%nat → h' !! x = h !! x) → tree_at h' i j) ∧
  (∀ cs a b, forest_at h cs a b →
     ∀ h', (∀ x, (a ≤ x < b)%nat → h' !! x = h !! x) → forest_at h' cs a b).
Proof.
  apply tree_forest_ind.
  - intros i e j He Hforest IH h' Hsame.
    destruct (proj2 (tree_forest_bounds h) _ _ _ Hforest) as [Hle _].
    apply tree_at_node with e.
    + rewrite Hsame by lia. done.
    + apply IH. intros x Hx. apply Hsame. lia.
  - intros i h' _. constructor.
  - intros c cs j k Htree IHtree Hforest IHforest h' Hsame.
    pose proof (proj1 (tree_forest_bounds h) _ _ Htree).
    destruct (proj2 (tree_forest_bounds h) _ _ _ Hforest) as [Hle _].
    apply forest_at_cons with j.
    + apply IHtree. intros x Hx. apply Hsame. lia.
    + apply IHforest. intros x Hx. apply Hsame. lia.
Qed.

Lemma forest_at_app h cs a b :
  forest_at h cs a b → ∀ ds k, forest_at h ds b k → forest_at h (cs ++ ds) a k.
Proof.
  induction 1 as [|c cs j k Htree Hforest IH]; intros ds k' Hds; [done|].
  simpl. apply forest_at_cons with j; [done|]. by apply IH.
Qed.

Lemma rightmost_facts h n i x :
  rightmost h n i x →
  tree_at h i n ∧ (i ≤ x < n)%nat ∧ is_Some (h !! x).
Proof.
  induction 1 as [i Htree|i e cs c x He Hch Hforest _ (Htree & Hrange & Hx)].
  - pose proof (proj1 (tree_forest_bounds h) _ _ Htree).
    split_and!; [done|lia|lia|]. inversion Htree; subst. by eexists.
  - destruct (proj2 (tree_forest_bounds h) _ _ _ Hforest) as [Hle _].
    split_and!; [|lia|lia|done].
    apply tree_at_node with e; [done|]. rewrite Hch.
    apply (forest_at_app _ _ _ _ Hforest).
    apply forest_at_cons with n; [done|constructor].
Qed.

Lemma rightmost_parent h r n i x :
  wf_tree h r → rightmost h n i x → (r ≤ i)%nat → x ≠ i →
  ∃ p px, h !! x = Some px ∧ get_parent_element px = Some p
          ∧ rightmost h n i p.
Proof.
  intros Hwf. induction 1 as [i Htree|i e cs c x He Hch Hforest Hright IH];
    intros Hri Hne; [done|].
  destruct (proj2 (tree_forest_bounds h) _ _ _ Hforest) as [Hle _].
  destruct (decide (x = c)) as [->|Hxc].
  - destruct (wf_children _ _ Hwf i e c Hri He) as (_ & ce & Hce & Hpar).
    { rewrite Hch. apply elem_of_app. right. by left. }
    exists i, ce. split_and!; [done..|].
    constructor.
    apply (rightmost_facts h n i c). by eapply rightmost_step.
  - destruct (IH ltac:(lia) Hxc) as (p & px & Hx & Hp & Hright').
    exists p, px. split_and!; [done..|]. by eapply rightmost_step.
Qed.

Lemma walk_up_None fuel h level : walk_up fuel h None level = Raise AttributeError.
Proof. by destruct fuel. Qed.

(** The walk towards the root stays on the rightmost branch. *)
Lemma walk_up_rightmost h r k level fuel :
  wf_tree h r →
  ∀ x p, rightmost h (length h) r x →
         walk_up fuel (h ++ k) (Some x) level = Ok p →
         rightmost h (length h) r p.
Proof.
  intros Hwf. induction fuel as [|fuel IH]; intros x p Hright;
    destruct (rightmost_facts _ _ _ _ Hright) as (_ & Hrange & [e He]);
    rewrite walk_up_unfold, (lookup_app_l_Some _ _ _ _ He);
    destruct (get_level e >? level - 1); try by intros [= <-].
  destruct (decide (x = r)) as [->|Hne].
  - destruct (wf_root _ _ Hwf) as (root & Hroot & _ & Hpar & _).
    rewrite He in Hroot. injection Hroot as ->.
    by rewrite Hpar, walk_up_None.
  - destruct (rightmost_parent h r _ r x Hwf Hright (le_n _) Hne)
      as (q & px & Hx & Hq & Hright').
    rewrite He in Hx. injection Hx as <-. rewrite Hq. by apply IH.
Qed.

(** Attaching below a node of the rightmost branch puts the new element
    at the end of that branch. *)
Lemma attach_rightmost h i p pe new :
  rightmost h (length h) i p →
  h !! p = Some pe → get_child_elements new = [] →
  rightmost (attach h p pe new) (S (length h)) i (length h).
Proof.
  intros Hright Hpe Hnil. pose proof (lookup_lt_Some _ _ _ Hpe) as Hplt.
  destruct (attach_new_element h p pe new Hplt) as [Hnew Hpar].
  assert (∀ x, x ≠ p → (x < length h)%nat →
               attach h p pe new !! x = h !! x) as Hsame.
  { intros x ? ?. rewrite lookup_attach by done.
    by rewrite !decide_False by lia. }
  assert (rightmost (attach h p pe new) (S (length h)) (length h) (length h))
    as Hleaf.
  { constructor. eapply tree_at_node; [exact Hnew|].
    simpl. rewrite Hnil. constructor. }
  remember (length h) as n eqn:Hn in Hright.
  induction Hright as [i Htree|i e cs c x He Hch Hforest Hright IH].
  - inversion Htree as [? e ? He Hforest]; subst.
    rewrite Hpe in He. injection He as <-.
    eapply rightmost_step; [exact Hpar|done| |done].
    apply (proj2 (tree_forest_frame h) _ _ _ Hforest).
    intros x Hx. apply Hsame; lia.
  - destruct (proj2 (tree_forest_bounds h) _ _ _ Hforest) as [Hle _].
    destruct (rightmost_facts _ _ _ _ Hright) as (_ & Hrange & _).
    eapply rightmost_step; [|exact Hch| |by apply IH].
    + rewrite Hsame by lia. done.
    + apply (proj2 (tree_forest_frame h) _ _ _ Hforest).
      intros y Hy. apply Hsame; lia.
Qed.

Lemma set_element_list_id st : set_element_list st (element_list st ++ []) = st.
Proof. destruct st. unfold set_element_list. simpl. by rewrite (right_id_L [] (++)). Qed.

(** The traversal of [__build_list] lists a subtree that occupies the
    addresses [i], ..., [j - 1] in the order of the addresses. *)
Lemma build_list_tree h :
  (∀ i j, tree_at h i j →
     ∀ depth st, heap st = h → (j - i ≤ depth)%nat →
       build_list depth i st
       = (Ok (), set_element_list st (element_list st ++ seq i (j - i)))) ∧
  (∀ cs a b, forest_at h cs a b →
     ∀ depth st, heap st = h → (b - a ≤ depth)%nat →
       for_each (build_list depth) cs st
       = (Ok (), set_element_list st (element_list st ++ seq a (b - a)))).
Proof.
  apply tree_forest_ind.
  - intros i e j He Hforest IH depth st Hh Hdepth.
    destruct (proj2 (tree_forest_bounds h) _ _ _ Hforest) as [Hle _].
    destruct depth as [|depth]; [lia|].
    cbn [build_list]. unfold bind, append_element_list, deref. step_m.
    rewrite Hh, He.
    erewrite IH; [|done|lia].
    unfold set_element_list. simpl. rewrite Hh. do 2 f_equal.
    replace (j - i)%nat with (S (j - S i)) by lia.
    by rewrite <- (assoc_L (++)).
  - intros i depth st _ _. simpl. unfold ret.
    by rewrite Nat.sub_diag, set_element_list_id.
  - intros c cs j k Htree IHtree Hforest IHforest depth st Hh Hdepth.
    pose proof (proj1 (tree_forest_bounds h) _ _ Htree).
    destruct (proj2 (tree_forest_bounds h) _ _ _ Hforest) as [Hle _].
    cbn [for_each].
    rewrite (bind_Ok _ _ _ _ _ (IHtree depth st Hh ltac:(lia))).
    erewrite IHforest; [|done|lia].
    unfold set_element_list. simpl. do 2 f_equal.
    rewrite <- (assoc_L (++)). f_equal.
    replace (k - c)%nat with ((j - c) + (k - j))%nat by lia.
    rewrite seq_app. do 2 f_equal. lia.
Qed.

Lemma parse_line_attach_walk line_number line last_element strict st last
    level pointer tag value crlf :
  wf_tree (heap st) (root_element st) →
  (root_element st ≤ last_element)%nat →
  heap st !! last_element = Some last →
  line_fields line_number line last strict
    = Ok (level, pointer, tag, value, crlf) →
  level ≤ get_level last + 1 →
  ∃ p pe k,
    walk_up (length (heap st ++ k)) (heap st ++ k) (Some last_element) level
      = Ok p ∧
    heap st !! p = Some pe ∧
    parse_line line_number line last_element strict st =
      (Ok (length (heap st)),
       mkState (attach (heap st) p pe (new_element level pointer tag value crlf))
               (element_list st) (element_dictionary st) (root_element st)).
Proof.
  intros Hwf Hrl Hlast Hfields Hle.
  assert (0 ≤ level) as Hnonneg.
  { eapply line_fields_level_nonneg; [|done].
    destruct (decide (last_element = root_element st)) as [->|].
    - destruct (wf_root _ _ Hwf) as (root & Hroot & ? & _ & ?).
      rewrite Hlast in Hroot. injection Hroot as ->. by right.
    - left. by destruct (wf_node _ _ Hwf last_element last ltac:(lia) Hlast). }
  destruct (walk_up_ok _ _ [new_element level pointer tag value crlf] Hwf
              last_element last (level - 1)
              (length (heap st ++ [new_element level pointer tag value crlf])))
    as (p & pe & Hwalk & Hrange & Hpe & Hlev); [done|done|lia| |].
  { rewrite length_app. simpl. apply lookup_lt_Some in Hlast. lia. }
  replace (level - 1 + 1) with level in Hwalk by lia.
  exists p, pe, [new_element level pointer tag value crlf].
  split_and!; [done|done|].
  unfold parse_line, bind, deref. step_m. rewrite Hlast, Hfields.
  destruct (Z.gtb_spec level (get_level last + 1)); [lia|].
  unfold create_element. simpl. fold (new_element level pointer tag value crlf).
  rewrite Hwalk. unfold add_child_element. simpl.
  pose proof (lookup_lt_Some _ _ _ Hpe) as Hplt.
  rewrite (lookup_app_l_Some _ _ _ _ Hpe).
  rewrite list_lookup_insert_ne by lia.
  rewrite list_lookup_middle by done. done.
Qed.

Lemma parse_line_rightmost line_number line last_element strict st element st' :
  wf_tree (heap st) (root_element st) →
  rightmost (heap st) (length (heap st)) (root_element st) last_element →
  parse_line line_number line last_element strict st = (Ok element, st') →
  rightmost (heap st') (length (heap st')) (root_element st') element ∧
  length (heap st') = S (length (heap st)).
Proof.
  intros Hwf Hright Hok.
  destruct (rightmost_facts _ _ _ _ Hright) as (_ & Hrange & _).
  destruct (parse_line_Ok_inv _ _ _ _ _ _ _ Hok)
    as (last & level & pointer & tag & value & crlf & Hlast & Hfields & Hle).
  assert (root_element st ≤ last_element)%nat as Hrl by lia.
  destruct (parse_line_attach_walk _ _ _ _ _ _ _ _ _ _ _ Hwf
              Hrl Hlast Hfields Hle) as (p & pe & k & Hwalk & Hpe & Heq).
  rewrite Heq in Hok. injection Hok as <- <-. simpl.
  rewrite length_attach. split; [|done].
  apply attach_rightmost; [|done|done].
  by eapply walk_up_rightmost.
Qed.

Lemma parse_lines_rightmost lines :
  ∀ line_number last_element strict st element st',
    wf_tree (heap st) (root_element st) →
    rightmost (heap st) (length (heap st)) (root_element st) last_element →
    parse_lines line_number lines last_element strict st = (Ok element, st') →
    rightmost (heap st') (length (heap st')) (root_element st') element ∧
    length (heap st') = (length (heap st) + length lines)%nat.
Proof.
  induction lines as [|line lines IH];
    intros line_number last_element strict st element st' Hwf Hright; simpl.
  - unfold ret. intros [= <- <-]. split; [done|lia].
  - intros (e1 & st1 & Hline & Hrest)%bind_inv_Ok.
    destruct (rightmost_facts _ _ _ _ Hright) as (_ & Hrange & _).
    assert (root_element st ≤ last_element)%nat as Hrl by lia.
    destruct (parse_line_wf _ _ _ _ _ _ _ Hwf Hrl Hline) as [Hwf1 _].
    destruct (parse_line_rightmost _ _ _ _ _ _ _ Hwf Hright Hline)
      as [Hright1 Hlen1].
    destruct (IH _ _ _ _ _ _ Hwf1 Hright1 Hrest) as [Hright2 Hlen2].
    split; [done|lia].
Qed.

(** X11. After a successful [parse], [get_element_list] returns the
    elements in the order of the lines, one element for each line: the
    element of line [k] is at address root + [k], and the list is root + 1,
    ..., root + the number of lines.  The interpreter has to allow more
    nested calls than the document has lines. *)
Theorem get_element_list_document_order (string : str) (strict : bool)
    (st st' : State) (depth : nat) :
  parse string strict st = (Ok (), st') →
  (length (PyStr.split LF (PyStr.strip string)) ≤ depth)%nat →
  length (heap st')
    = (S (root_element st') + length (PyStr.split LF (PyStr.strip string)))%nat ∧
  get_element_list depth st' =
    (Ok (seq (S (root_element st'))
             (length (PyStr.split LF (PyStr.strip string)))),
     set_element_list st'
       (seq (S (root_element st'))
            (length (PyStr.split LF (PyStr.strip string))))).
Proof.
  intros Hparse Hdepth.
  revert Hparse. rewrite parse_unfold.
  destruct (parse_lines 1 _ _ _ _) as [[element|e] st1] eqn:Hlines; [|done].
  intros [= <-].
  destruct (parse_lines_frame _ _ _ _ (fresh_document st) _ _
              (wf_tree_fresh_root (heap st)) (le_n _) Hlines)
    as (Hroot & Hlist & _).
  simpl in Hroot, Hlist.
  assert (rightmost (heap (fresh_document st))
            (length (heap (fresh_document st)))
            (root_element (fresh_document st)) (length (heap st))) as Hright0.
  { simpl. constructor. rewrite length_app. simpl.
    replace (length (heap st) + 1)%nat with (S (length (heap st))) by lia.
    eapply tree_at_node; [by apply list_lookup_middle|]. simpl. constructor. }
  destruct (parse_lines_rightmost _ _ _ _ (fresh_document st) _ _
              (wf_tree_fresh_root (heap st)) Hright0 Hlines) as [Hright Hlen].
  simpl in Hlen. rewrite length_app in Hlen. simpl in Hlen.
  split; [lia|].
  destruct (rightmost_facts _ _ _ _ Hright) as (Htree & _ & _).
  inversion Htree as [? root ? Hrootel Hforest]; subst.
  unfold get_element_list. rewrite Hlist. rewrite decide_True by done.
  unfold get_root_child_elements, bind, deref. step_m. rewrite Hrootel.
  rewrite (proj2 (build_list_tree (heap st1)) _ _ _ Hforest depth st1 eq_refl)
    by lia.
  rewrite Hlist. simpl.
  by replace (length (heap st1) - S (root_element st1))%nat
    with (length (PyStr.split LF (PyStr.strip string))) by lia.
Qed.

(** ** Lines of the grammar are accepted *)

Section first_candidates.

Implicit Types (r : regex) (s m rest : str) (c : candidate) (p : char → bool).

Lemma first_re_match r s c : first_candidate r s c → re_match r s = Some c.1.2.
Proof. intros [l Hl]. unfold re_match. by rewrite Hl. Qed.

Lemma first_Lit (a : char) s : first_candidate (Lit a) (a :: s) ([a], [], s).
Proof. exists []. simpl. by rewrite N.eqb_refl. Qed.

Lemma first_Class p x s :
  p x = true → first_candidate (Class p) (x :: s) ([x], [], s).
Proof. intros Hx. exists []. simpl. by rewrite Hx. Qed.

Lemma first_Eps s : first_candidate Eps s ([], [], s).
Proof. by exists []. Qed.

Lemma first_Seq r1 r2 s c1 c2 :
  first_candidate r1 s c1 → first_candidate r2 c1.2 c2 →
  first_candidate (Seq r1 r2) s (c1.1.1 ++ c2.1.1, c1.1.2 ++ c2.1.2, c2.2).
Proof.
  intros [l1 H1] [l2 H2]. unfold first_candidate. rewrite run_Seq, H1.
  rewrite bind_cons, H2, bind_cons. simpl. by eexists.
Qed.

Lemma first_Alt_l r1 r2 s c :
  first_candidate r1 s c → first_candidate (Alt r1 r2) s c.
Proof. intros [l Hl]. unfold first_candidate. simpl. rewrite Hl. by eexists. Qed.

Lemma first_Alt_r r1 r2 s c :
  run r1 s = [] → first_candidate r2 s c → first_candidate (Alt r1 r2) s c.
Proof.
  intros Hnil [l Hl]. unfold first_candidate. simpl. rewrite Hnil, Hl.
  by eexists.
Qed.

Lemma first_Group r s c :
  first_candidate r s c →
  first_candidate (Group r) s (c.1.1, c.1.1 :: c.1.2, c.2).
Proof. intros [l Hl]. unfold first_candidate. simpl. rewrite Hl. by eexists. Qed.

Lemma first_Star p m rest :
  Forall (λ x, p x = true) m →
  (∀ x s', rest = x :: s' → p x = false) →
  first_candidate (Star p) (m ++ rest) (m, [], rest).
Proof.
  intros Hm Hrest. destruct (star_longest p m rest Hm Hrest) as [l Hl].
  unfold first_candidate. simpl. rewrite Hl. by eexists.
Qed.

Lemma first_Plus p x m rest :
  p x = true → Forall (λ x, p x = true) m →
  (∀ x s', rest = x :: s' → p x = false) →
  first_candidate (Plus p) (x :: m ++ rest) (x :: m, [], rest).
Proof.
  intros Hx Hm Hrest.
  apply (first_Seq (Class p) (Star p) _ ([x], [], m ++ rest) (m, [], rest)).
  - by apply first_Class.
  - by apply first_Star.
Qed.

Lemma run_Seq_nil r1 r2 s : run r1 s = [] → run (Seq r1 r2) s = [].
Proof. intros H. by rewrite run_Seq, H. Qed.

Lemma run_Lit_nil (a : char) s :
  (∀ x s', s = x :: s' → x ≠ a) → run (Lit a) s = [].
Proof.
  intros Hs. destruct s as [|x s']; [done|]. simpl.
  destruct (N.eqb_spec x a) as [->|]; [|done]. by destruct (Hs a s').
Qed.

End first_candidates.

(** The longest prefix whose characters satisfy [p]. *)
Lemma span_prefix (p : char → bool) (l : str) :
  ∃ a b, l = a ++ b ∧ Forall (λ x, p x = true) a ∧
         ∀ x s', b = x :: s' → p x = false.
Proof.
  induction l as [|x l (a & b & -> & Ha & Hb)].
  - exists [], []. by split_and!.
  - destruct (p x) eqn:Hx.
    + exists (x :: a), b. split_and!; [done|by constructor|done].
    + exists [], (x :: a ++ b). split_and!; [done|done|].
      by intros ? ? [= <- <-].
Qed.

Lemma first_level lvl rest :
  level_digits lvl →
  first_candidate level_regex (lvl ++ SPACE :: rest) (lvl ++ [SPACE], [lvl], rest).
Proof.
  intros [->|(d & ds & -> & Hd & Hds)]; unfold level_regex.
  - apply (first_Seq (Group _) (Lit SPACE) _ ([48%N], [[48%N]], SPACE :: rest)
             ([SPACE], [], rest)); [|apply first_Lit].
    apply (first_Group _ _ ([48%N], [], SPACE :: rest)).
    apply first_Alt_l, first_Lit.
  - destruct (span_prefix is_nonzero_digit ds) as (a & b & -> & Ha & Hb).
    apply Forall_app in Hds as [_ Hds].
    apply (first_Seq (Group _) (Lit SPACE) _
             (d :: a ++ b, [d :: a ++ b], SPACE :: rest) ([SPACE], [], rest));
      [|apply first_Lit].
    apply (first_Group _ _ (d :: a ++ b, [], SPACE :: rest)).
    apply first_Alt_r.
    { apply run_Lit_nil. intros x s' [= <- _] ->. done. }
    simpl. rewrite <- (assoc_L (++)).
    apply (first_Seq (Plus _) (Star _) _ (d :: a, [], b ++ SPACE :: rest)
             (b, [], SPACE :: rest)).
    + apply first_Plus; [done..|].
      intros x s' Hx. destruct b as [|y b]; simpl in Hx.
      * by injection Hx as <- _.
      * injection Hx as <- _. by eapply Hb.
    + apply first_Star; [done|]. by intros x s' [= <- _].
Qed.

Lemma first_pointer pointer rest :
  pointer_ok pointer →
  (∀ x s', rest = x :: s' → x ≠ 64%N) →
  first_candidate pointer_regex (pointer_field pointer ++ rest)
    (pointer_field pointer, [pointer_field pointer], rest).
Proof.
  intros Hok Hrest. unfold pointer_regex. destruct pointer as [id|]; simpl.
  - destruct Hok as [Hne Hid]. destruct id as [|x id]; [done|].
    inversion Hid as [|? ? Hx Hid']; subst.
    apply (first_Group _ _ (64%N :: (x :: id) ++ [64%N; SPACE], [], rest)).
    apply first_Alt_l.
    apply (first_Seq (Lit 64) _ _
             ([64%N], [], ((x :: id) ++ [64%N; SPACE]) ++ rest)
             ((x :: id) ++ [64%N; SPACE], [], rest)); [apply first_Lit|].
    simpl. rewrite <- (assoc_L (++)).
    apply (first_Seq (Plus _) _ _ (x :: id, [], [64%N; SPACE] ++ rest)
             ([64%N; SPACE], [], rest)).
    + apply first_Plus; [done..|]. by intros ? ? [= <- _].
    + apply (first_Seq (Lit 64) (Lit SPACE) _ ([64%N], [], SPACE :: rest)
               ([SPACE], [], rest)); apply first_Lit.
  - apply (first_Group _ _ ([], [], rest)).
    apply first_Alt_r; [|apply first_Eps].
    by apply run_Seq_nil, run_Lit_nil.
Qed.

Lemma first_tag tag rest :
  tag_ok tag →
  (∀ x s', rest = x :: s' → is_tag_char x = false) →
  first_candidate tag_regex (tag ++ rest) (tag, [tag], rest).
Proof.
  intros [Hne Htag] Hrest. unfold tag_regex.
  destruct tag as [|x tag]; [done|]. inversion Htag; subst.
  apply (first_Group _ _ (x :: tag, [], rest)). by apply first_Plus.
Qed.

Lemma first_value value rest :
  value_ok value →
  (∀ x s', rest = x :: s' → is_eol x = true) →
  first_candidate value_regex (value_field value ++ rest)
    (value_field value, [value_field value], rest).
Proof.
  intros Hok Hrest. unfold value_regex. destruct value as [v|]; simpl.
  - apply (first_Group _ _ (SPACE :: v, [], rest)). apply first_Alt_l.
    apply (first_Seq (Lit SPACE) (Star _) _ ([SPACE], [], v ++ rest)
             (v, [], rest)); [apply first_Lit|].
    apply first_Star.
    + eapply Forall_impl; [exact Hok|]. intros x. unfold is_not_eol, is_eol.
      rewrite negb_true_iff, !orb_false_iff. tauto.
    + intros x s' Hx. specialize (Hrest x s' Hx). unfold is_not_eol, is_eol in *.
      rewrite negb_false_iff. apply orb_true_iff in Hrest as [?|?];
        apply orb_true_iff; tauto.
  - apply (first_Group _ _ ([], [], rest)).
    apply first_Alt_r; [|apply first_Eps].
    apply run_Seq_nil, run_Lit_nil. intros x s' Hx ->.
    by specialize (Hrest _ _ Hx).
Qed.

Lemma first_end_of_line eol rest :
  terminator_ok eol rest →
  first_candidate end_of_line_regex (eol ++ rest) (eol, [eol], rest).
Proof.
  unfold end_of_line_regex, OneOrTwo.
  intros [(c1 & c2 & -> & H1 & H2)|(c1 & -> & H1 & Hrest)].
  - apply (first_Group _ _ ([c1; c2], [], rest)).
    apply (first_Seq (Class _) _ _ ([c1], [], c2 :: rest) ([c2], [], rest));
      [by apply first_Class|].
    by apply first_Alt_l, first_Class.
  - apply (first_Group _ _ ([c1], [], rest)).
    apply (first_Seq (Class _) _ _ ([c1], [], rest) ([], [], rest));
      [by apply first_Class|].
    apply first_Alt_r; [|apply first_Eps].
    destruct rest as [|x s']; [done|]. simpl.
    by rewrite (Hrest x s' eq_refl).
Qed.

Lemma is_eol_not_tag_char x : is_eol x = true → is_tag_char x = false.
Proof. by intros [-> | ->]%is_eol_spec. Qed.

Lemma is_tag_char_not_eol x : is_tag_char x = true → is_eol x = false.
Proof.
  intros Hx. destruct (is_eol x) eqn:He; [|done].
  apply is_eol_not_tag_char in He. congruence.
Qed.

Lemma is_digit_not_eol x : is_digit x = true → is_eol x = false.
Proof.
  intros Hx. destruct (is_eol x) eqn:He; [|done].
  by apply is_eol_spec in He as [-> | ->].
Qed.

Lemma is_nonzero_digit_digit x : is_nonzero_digit x = true → is_digit x = true.
Proof.
  unfold is_nonzero_digit, is_digit. rewrite !andb_true_iff, !N.leb_le. lia.
Qed.

Lemma tag_head_not_at tag rest :
  tag_ok tag → ∀ x s', tag ++ rest = x :: s' → x ≠ 64%N.
Proof.
  intros [Hne Htag] x s'. destruct tag as [|y tag]; [done|].
  inversion Htag as [|? ? Hy _]; subst. intros [= <- _] ->. done.
Qed.

Lemma value_head_not_tag_char value rest :
  (∀ x s', rest = x :: s' → is_tag_char x = false) →
  ∀ x s', value_field value ++ rest = x :: s' → is_tag_char x = false.
Proof.
  intros Hrest x s'. destruct value as [v|]; simpl.
  - by intros [= <- _].
  - apply Hrest.
Qed.

Lemma terminator_head eol rest :
  terminator_ok eol rest → ∀ x s', eol ++ rest = x :: s' → is_eol x = true.
Proof.
  intros [(c1 & c2 & -> & H1 & H2)|(c1 & -> & H1 & _)] x s'; by intros [= <- _].
Qed.

Lemma rstrip_pointer_field pointer :
  PyStr.rstrip (N.eqb SPACE) (pointer_field pointer) = stored_pointer pointer.
Proof.
  destruct pointer as [id|]; [|done]. unfold PyStr.rstrip. simpl.
  rewrite reverse_cons, reverse_app. simpl.
  by rewrite reverse_cons, reverse_app, reverse_involutive.
Qed.

Lemma strip_value_field value :
  PyStr.strip (value_field value) = PyStr.strip (default [] value).
Proof. by destruct value. Qed.

Lemma gedcom_line_assoc lvl pointer tag value eol rest :
  gedcom_line lvl pointer tag value eol ++ rest =
  lvl ++ SPACE ::
    (pointer_field pointer ++ (tag ++ (value_field value ++ (eol ++ rest)))).
Proof.
  unfold gedcom_line. rewrite <- (assoc_L (++)). simpl.
  by rewrite <- !(assoc_L (++)).
Qed.

(** A line put together from well-shaped fields and a terminator matches
    the primary grammar, with the fields as groups. *)
Lemma gedcom_line_match lvl pointer tag value eol rest :
  level_digits lvl → pointer_ok pointer → tag_ok tag → value_ok value →
  terminator_ok eol rest →
  re_match gedcom_line_regex (gedcom_line lvl pointer tag value eol ++ rest)
  = Some [lvl; pointer_field pointer; tag; value_field value; eol].
Proof.
  intros Hlvl Hptr Htag Hval Heol. rewrite gedcom_line_assoc.
  pose proof (terminator_head _ _ Heol) as Hhead.
  pose proof (first_level lvl
                (pointer_field pointer ++ tag ++ value_field value ++ eol ++ rest)
                Hlvl) as H1.
  pose proof (first_pointer pointer (tag ++ value_field value ++ eol ++ rest)
                Hptr (tag_head_not_at tag _ Htag)) as H2.
  pose proof (first_tag tag (value_field value ++ eol ++ rest) Htag
                (value_head_not_tag_char value (eol ++ rest)
                   (λ x s' Hx, is_eol_not_tag_char x (Hhead x s' Hx)))) as H3.
  pose proof (first_value value (eol ++ rest) Hval Hhead) as H4.
  pose proof (first_end_of_line eol rest Heol) as H5.
  pose proof (first_Seq _ _ _ _ _ H4 H5) as H45.
  pose proof (first_Seq _ _ _ _ _ H3 H45) as H345.
  pose proof (first_Seq _ _ _ _ _ H2 H345) as H2345.
  pose proof (first_Seq _ _ _ _ _ H1 H2345) as Hall.
  unfold gedcom_line_regex. by rewrite (first_re_match _ _ _ Hall).
Qed.

(** X12. A line made of a level without leading zero, an optional pointer,
    a tag, an optional value and a terminator is accepted by [parse_line]
    in strict and in lenient mode, provided the level is at most one more
    than that of the previous element.  The element built carries the
    level, the pointer without its trailing space, the tag, the value with
    the white space at both ends removed and the terminator as written;
    what follows the terminator in the line is ignored. *)
Theorem grammar_line_accepted (line_number : nat) (lvl : str)
    (pointer : option str) (tag : str) (value : option str) (eol rest : str)
    (last_element : eid) (strict : bool) (st : State) (prev : Element)
    (level : Z) :
  level_digits lvl → pointer_ok pointer → tag_ok tag → value_ok value →
  terminator_ok eol rest →
  wf_tree (heap st) (root_element st) →
  (root_element st ≤ last_element)%nat →
  heap st !! last_element = Some prev →
  PyStr.int lvl = Some level →
  level ≤ get_level prev + 1 →
  ∃ e st',
    parse_line line_number (gedcom_line lvl pointer tag value eol ++ rest)
               last_element strict st
      = (Ok (length (heap st)), st') ∧
    heap st' !! length (heap st) = Some e ∧
    get_level e = level ∧
    get_pointer e = Some (stored_pointer pointer) ∧
    get_tag e = tag ∧
    get_value e = PyStr.strip (default [] value) ∧
    get_crlf e = eol.
Proof.
  intros Hlvl Hptr Htag Hval Heol Hwf Hrl Hprev Hint Hle.
  pose proof (gedcom_line_match lvl pointer tag value eol rest
                Hlvl Hptr Htag Hval Heol) as Hmatch.
  pose proof (line_fields_primary line_number _ prev strict _ level Hmatch Hint)
    as Hfields.
  unfold part in Hfields. simpl in Hfields.
  rewrite rstrip_pointer_field, strip_value_field in Hfields.
  destruct (parse_line_attach _ _ _ _ _ _ _ _ _ _ _ Hwf Hrl Hprev Hfields Hle)
    as (p & pe & _ & Hpe & _ & _ & Heq).
  destruct (attach_new_element (heap st) p pe
              (new_element level (Some (stored_pointer pointer)) tag
                 (PyStr.strip (default [] value)) eol)) as [Hnew _].
  { by eapply lookup_lt_Some. }
  eexists _, _. by split_and!.
Qed.

Lemma level_digits_Forall lvl :
  level_digits lvl → Forall (λ x, is_digit x = true) lvl.
Proof.
  intros [->|(d & ds & -> & Hd & Hds)]; [by repeat constructor|].
  constructor; [by apply is_nonzero_digit_digit|done].
Qed.

Lemma gedcom_line_no_eol lvl pointer tag value :
  level_digits lvl →
  (∀ id, pointer = Some id → Forall (λ x, is_eol x = false) id) →
  tag_ok tag → value_ok value →
  Forall (λ x, is_eol x = false) (gedcom_line lvl pointer tag value []).
Proof.
  intros Hlvl Hptr [_ Htag] Hval. unfold gedcom_line.
  apply Forall_app. split.
  { eapply Forall_impl; [by apply level_digits_Forall|].
    apply is_digit_not_eol. }
  constructor; [done|]. apply Forall_app. split.
  { destruct pointer as [id|]; simpl; [|done].
    constructor; [done|]. apply Forall_app. split; [by apply Hptr|].
    by repeat constructor. }
  apply Forall_app. split.
  { eapply Forall_impl; [exact Htag|]. apply is_tag_char_not_eol. }
  rewrite (right_id_L [] (++)). destruct value as [v|]; simpl; [|done].
  by constructor.
Qed.

Lemma last_line_match lvl pointer tag value :
  level_digits lvl → pointer_ok pointer → tag_ok tag → value_ok value →
  re_match last_line_regex (gedcom_line lvl pointer tag value [])
  = Some [lvl; pointer_field pointer; tag; value_field value].
Proof.
  intros Hlvl Hptr Htag Hval. unfold gedcom_line.
  pose proof (first_level lvl
                (pointer_field pointer ++ tag ++ value_field value ++ [])
                Hlvl) as H1.
  pose proof (first_pointer pointer (tag ++ value_field value ++ [])
                Hptr (tag_head_not_at tag _ Htag)) as H2.
  assert (∀ x s', @nil N = x :: s' → is_tag_char x = false) as Hnil1 by done.
  assert (∀ x s', @nil N = x :: s' → is_eol x = true) as Hnil2 by done.
  pose proof (first_tag tag (value_field value ++ []) Htag
                (value_head_not_tag_char value [] Hnil1)) as H3.
  pose proof (first_value value [] Hval Hnil2) as H4.
  pose proof (first_Seq _ _ _ _ _ H3 H4) as H34.
  pose proof (first_Seq _ _ _ _ _ H2 H34) as H234.
  pose proof (first_Seq _ _ _ _ _ H1 H234) as Hall.
  unfold last_line_regex. by rewrite (first_re_match _ _ _ Hall).
Qed.

(** X13. The same line without its terminator, and with no carriage
    return or line feed in it, is a format violation in strict mode.  In
    lenient mode the first recovery accepts it: the element carries the
    same level, pointer, tag and stripped value, and a line feed as its
    terminator. *)
Theorem unterminated_line_recovered (line_number : nat) (lvl : str)
    (pointer : option str) (tag : str) (value : option str)
    (last_element : eid) (st : State) (prev : Element) (level : Z) :
  level_digits lvl → pointer_ok pointer →
  (∀ id, pointer = Some id → Forall (λ x, is_eol x = false) id) →
  tag_ok tag → value_ok value →
  wf_tree (heap st) (root_element st) →
  (root_element st ≤ last_element)%nat →
  heap st !! last_element = Some prev →
  PyStr.int lvl = Some level →
  level ≤ get_level prev + 1 →
  parse_line line_number (gedcom_line lvl pointer tag value [])
             last_element true st
    = (Raise (GedcomFormatViolationError line_number
                (Some (gedcom_line lvl pointer tag value []))), st) ∧
  ∃ e st',
    parse_line line_number (gedcom_line lvl pointer tag value [])
               last_element false st
      = (Ok (length (heap st)), st') ∧
    heap st' !! length (heap st) = Some e ∧
    get_level e = level ∧
    get_pointer e = Some (stored_pointer pointer) ∧
    get_tag e = tag ∧
    get_value e = PyStr.strip (default [] value) ∧
    get_crlf e = [LF].
Proof.
  intros Hlvl Hptr Hptr' Htag Hval Hwf Hrl Hprev Hint Hle.
  assert (re_match gedcom_line_regex (gedcom_line lvl pointer tag value [])
          = None) as Hnone.
  { destruct (re_match gedcom_line_regex _) as [g|] eqn:Hm; [|done].
    apply gedcom_line_has_eol in Hm as (x & Hx & Heol).
    pose proof (gedcom_line_no_eol lvl pointer tag value Hlvl Hptr' Htag Hval)
      as Hall.
    rewrite Forall_forall in Hall. rewrite (Hall x Hx) in Heol. done. }
  split; [by apply parse_line_strict_violation with prev|].
  assert (line_fields line_number (gedcom_line lvl pointer tag value []) prev
            false
          = Ok (level, Some (stored_pointer pointer), tag,
                PyStr.strip (default [] value), [LF])) as Hfields.
  { unfold line_fields.
    rewrite Hnone, (last_line_match lvl pointer tag value Hlvl Hptr Htag Hval).
    unfold part. simpl. by rewrite Hint, rstrip_pointer_field, strip_value_field. }
  destruct (parse_line_attach _ _ _ _ _ _ _ _ _ _ _ Hwf Hrl Hprev Hfields Hle)
    as (p & pe & _ & Hpe & _ & _ & Heq).
  destruct (attach_new_element (heap st) p pe
              (new_element level (Some (stored_pointer pointer)) tag
                 (PyStr.strip (default [] value)) [LF])) as [Hnew _].
  { by eapply lookup_lt_Some. }
  eexists _, _. by split_and!.
Qed.

(** ** The further properties at worked inputs *)

Lemma parse_line_allocates_one_witness :
  let st' := (parse_line 3 (py "1 DEST Y" ++ [CR; LF]) 3 true header_state).2 in
  4%nat = length (heap header_state) ∧
  length (heap st') = S (length (heap header_state)) ∧
  root_element st' = root_element header_state ∧
  element_list st' = element_list header_state ∧
  element_dictionary st' = element_dictionary header_state ∧
  ∃ p pe pe' e,
    (root_element header_state ≤ p ≤ 3)%nat ∧
    heap header_state !! p = Some pe ∧
    heap st' !! p = Some pe' ∧
    get_child_elements pe' = get_child_elements pe ++ [4%nat] ∧
    get_level pe' = get_level pe ∧ get_pointer pe' = get_pointer pe ∧
    get_tag pe' = get_tag pe ∧ get_value pe' = get_value pe ∧
    get_crlf pe' = get_crlf pe ∧
    get_parent_element pe' = get_parent_element pe ∧
    heap st' !! 4%nat = Some e ∧
    get_parent_element e = Some p ∧
    get_child_elements e = [] ∧
    get_level e = get_level pe + 1 ∧
    ∀ i, i ≠ p → i ≠ 4%nat → heap st' !! i = heap header_state !! i.
Proof.
  intros st'.
  apply (parse_line_allocates_one 3 (py "1 DEST Y" ++ [CR; LF]) 3 true
           header_state st' 4).
  - exact (parse_wf _ _ _ _ header_state_parse).
  - vm_compute. lia.
  - vm_compute. reflexivity.
Defined.

Lemma parse_line_lenient_unterminated_witness :
  parse_line 1 (py "free text") 0 false Parser__init__
  = (Raise AttributeError, Parser__init__).
Proof.
  apply parse_line_lenient_unterminated.
  - eexists. vm_compute. reflexivity.
  - vm_compute. reflexivity.
  - apply Forall_forall. apply (bool_decide_unpack _). vm_compute. exact I.
Defined.

Lemma parse_blank_input_witness :
  parse (py "  ") false Parser__init__
  = (Raise AttributeError, fresh_document Parser__init__).
Proof.
  apply (parse_blank_input (py "  ") false Parser__init__).
  vm_compute. reflexivity.
Defined.

Lemma parse_strict_needs_carriage_return_witness :
  Forall (λ line, CR ∈ line)
    (PyStr.split LF
       (PyStr.strip (py "0 HEAD" ++ [CR; LF] ++ py "0 TRLR" ++ [CR] ++ py "X"))).
Proof.
  apply (parse_strict_needs_carriage_return _ Parser__init__
           (parse (py "0 HEAD" ++ [CR; LF] ++ py "0 TRLR" ++ [CR] ++ py "X")
                  true Parser__init__).2).
  vm_compute. reflexivity.
Defined.

Lemma get_element_by_pointer_last_record_witness :
  ∃ root,
    heap example_state !! root_element example_state = Some root ∧
    get_element_by_pointer (py "@I1@") example_state =
      (Ok (if decide (py "@I1@" = []) then None
           else last (records_with_pointer (heap example_state)
                        (get_child_elements root) (py "@I1@"))),
       cached example_state).
Proof.
  eexists. split; [vm_compute; reflexivity|].
  apply get_element_by_pointer_last_record.
  - vm_compute. reflexivity.
  - vm_compute. reflexivity.
Defined.

Lemma find_path_is_paternal_line_witness :
  paternal_line example_state 12 [Some 12%nat; Some 2%nat] ∧
  ∃ j ej anc,
    last [Some 12%nat; Some 2%nat] = Some (Some j) ∧
    heap example_state !! j = Some ej ∧
    heap example_state !! 2%nat = Some anc ∧
    get_pointer ej = get_pointer anc.
Proof.
  apply (find_path_is_paternal_line 5 example_state
           (find_path_to_ancestor 5 (Some 12%nat) (Some 2%nat) None
              example_state).2).
  - eexists. vm_compute. reflexivity.
  - vm_compute. reflexivity.
Defined.

Lemma find_path_along_fathers_witness :
  (find_path_to_ancestor 5 (Some 12%nat) (Some 2%nat) None example_state).1
  = Ok (Some [Some 12%nat; Some 2%nat]).
Proof.
  eapply (find_path_along_fathers 5 example_state 12 2).
  - eexists. vm_compute. reflexivity.
  - vm_compute. reflexivity.
  - eapply reaches_step.
    + vm_compute. reflexivity.
    + vm_compute. discriminate.
    + vm_compute. reflexivity.
    + eapply reaches_end; vm_compute; reflexivity.
  - simpl. lia.
Defined.

Lemma get_children_in_family_order_witness :
  ∃ ind,
    as_individual (heap example_state) (Some 2%nat) = Some ind ∧
    get_children (Some 2%nat) example_state
      = (Ok (children_of example_state ind), cached example_state).
Proof.
  eexists. split; [vm_compute; reflexivity|].
  apply get_children_in_family_order.
  - eexists. vm_compute. reflexivity.
  - vm_compute. reflexivity.
  - apply (bool_decide_unpack _). vm_compute. exact I.
Defined.

Lemma get_descendants_preorder_witness :
  ∃ ind,
    as_individual (heap example_state) (Some 2%nat) = Some ind ∧
    get_descendants 2 (Some 2%nat) example_state
      = (Ok (children_of example_state ind ≫= λ c, [c]), cached example_state).
Proof.
  eexists. split; [vm_compute; reflexivity|].
  apply (get_descendants_preorder 1 example_state 2 _ (λ _, [])).
  - eexists. vm_compute. reflexivity.
  - vm_compute. reflexivity.
  - apply (bool_decide_unpack _). vm_compute. exact I.
  - intros c Hc.
    replace (children_of example_state _) with [12%nat] in Hc
      by (vm_compute; reflexivity).
    apply list_elem_of_singleton in Hc as ->. vm_compute. reflexivity.
Defined.

Lemma get_element_list_document_order_witness :
  length (heap example_state)
    = (S (root_element example_state)
       + length (PyStr.split LF (PyStr.strip example_document)))%nat ∧
  get_element_list 13 example_state =
    (Ok (seq (S (root_element example_state))
             (length (PyStr.split LF (PyStr.strip example_document)))),
     set_element_list example_state
       (seq (S (root_element example_state))
            (length (PyStr.split LF (PyStr.strip example_document))))).
Proof.
  apply (get_element_list_document_order example_document false
           Parser__init__ example_state 13).
  - vm_compute. reflexivity.
  - vm_compute. lia.
Defined.

Lemma grammar_line_accepted_witness :
  ∃ e st',
    parse_line 1
      (gedcom_line (py "0") (Some (py "I1")) (py "INDI") (Some (py " x y "))
                   [CR; LF] ++ py "tail")
      0 true Parser__init__
      = (Ok (length (heap Parser__init__)), st') ∧
    heap st' !! length (heap Parser__init__) = Some e ∧
    get_level e = 0 ∧
    get_pointer e = Some (stored_pointer (Some (py "I1"))) ∧
    get_tag e = py "INDI" ∧
    get_value e = PyStr.strip (default [] (Some (py " x y "))) ∧
    get_crlf e = [CR; LF].
Proof.
  apply (grammar_line_accepted 1 (py "0") (Some (py "I1")) (py "INDI")
           (Some (py " x y ")) [CR; LF] (py "tail") 0 true Parser__init__
           RootElement 0).
  - left. reflexivity.
  - split; [discriminate|]. apply (bool_decide_unpack _). vm_compute. exact I.
  - split; [discriminate|]. apply (bool_decide_unpack _). vm_compute. exact I.
  - apply (bool_decide_unpack _). vm_compute. exact I.
  - left. exists CR, LF. split_and!; reflexivity.
  - exact (wf_tree_fresh_root []).
  - simpl. lia.
  - reflexivity.
  - vm_compute. reflexivity.
  - vm_compute. discriminate.
Defined.

Lemma unterminated_line_recovered_witness :
  parse_line 1 (gedcom_line (py "0") (Some (py "I1")) (py "INDI")
                  (Some (py " x y ")) [])
             0 true Parser__init__
    = (Raise (GedcomFormatViolationError 1
                (Some (gedcom_line (py "0") (Some (py "I1")) (py "INDI")
                         (Some (py " x y ")) []))), Parser__init__) ∧
  ∃ e st',
    parse_line 1 (gedcom_line (py "0") (Some (py "I1")) (py "INDI")
                    (Some (py " x y ")) [])
               0 false Parser__init__
      = (Ok (length (heap Parser__init__)), st') ∧
    heap st' !! length (heap Parser__init__) = Some e ∧
    get_level e = 0 ∧
    get_pointer e = Some (stored_pointer (Some (py "I1"))) ∧
    get_tag e = py "INDI" ∧
    get_value e = PyStr.strip (default [] (Some (py " x y "))) ∧
    get_crlf e = [LF].
Proof.
  apply (unterminated_line_recovered 1 (py "0") (Some (py "I1")) (py "INDI")
           (Some (py " x y ")) 0 Parser__init__ RootElement 0).
  - left. reflexivity.
  - split; [discriminate|]. apply (bool_decide_unpack _). vm_compute. exact I.
  - intros id [= <-]. apply (bool_decide_unpack _). vm_compute. exact I.
  - split; [discriminate|]. apply (bool_decide_unpack _). vm_compute. exact I.
  - apply (bool_decide_unpack _). vm_compute. exact I.
  - exact (wf_tree_fresh_root []).
  - simpl. lia.
  - reflexivity.
  - vm_compute. reflexivity.
  - vm_compute. discriminate.
Defined.

(** ** Strict and lenient mode *)

Lemma parse_line_strict_lenient line_number line last_element st r st' :
  parse_line line_number line last_element true st = (r, st') →
  (∀ k raw, r ≠ Raise (GedcomFormatViolationError k (Some raw))) →
  parse_line line_number line last_element false st = (r, st').
Proof.
  unfold parse_line, bind, deref, line_fields. step_m.
  destruct (heap st !! last_element) as [prev|]; [|done].
  destruct (re_match gedcom_line_regex line) as [parts|]; [done|].
  intros [= <- <-] Hr. by destruct (Hr line_number line).
Qed.

Lemma parse_lines_strict_lenient lines :
  ∀ line_number last_element st (r : result eid) st',
  parse_lines line_number lines last_element true st = (r, st') →
  (∀ k raw, r ≠ Raise (GedcomFormatViolationError k (Some raw))) →
  parse_lines line_number lines last_element false st = (r, st').
Proof.
  induction lines as [|line lines IH];
    intros line_number last_element st r st' Hrun Hr; [done|].
  simpl in *. unfold bind in *.
  destruct (parse_line line_number line last_element true st)
    as [[element|e] st1] eqn:Hline.
  - rewrite (parse_line_strict_lenient _ _ _ _ _ _ Hline) by done.
    by apply IH.
  - injection Hrun as <- <-.
    by rewrite (parse_line_strict_lenient _ _ _ _ _ _ Hline).
Qed.

(** X14. The two modes differ only on documents with a line that the
    primary grammar rejects: whatever [parse] does in strict mode, short of
    raising the format violation that quotes such a line, it does in
    lenient mode as well, with the same result and the same elements. *)
Theorem parse_strict_outcome_in_lenient (string : str) (st st' : State)
    (r : result unit) :
  parse string true st = (r, st') →
  (∀ k raw, r ≠ Raise (GedcomFormatViolationError k (Some raw))) →
  parse string false st = (r, st').
Proof.
  rewrite !parse_unfold.
  destruct (parse_lines 1 _ _ true _) as [[element|e] st1] eqn:Hlines;
    intros [= <- <-] Hr.
  - by rewrite (parse_lines_strict_lenient _ _ _ _ _ _ Hlines).
  - rewrite (parse_lines_strict_lenient _ _ _ _ _ _ Hlines); [done|].
    intros k raw [= ->]. by destruct (Hr k raw).
Qed.

Lemma parse_strict_outcome_in_lenient_witness :
  parse jump_document false Parser__init__
  = (Raise (GedcomFormatViolationError 3 None),
     (parse jump_document true Parser__init__).2).
Proof.
  apply parse_strict_outcome_in_lenient.
  - vm_compute. reflexivity.
  - intros k raw. discriminate.
Defined.

(** ** Descendants on a cycle of child links *)

Lemma extend_each_Ok_inv {A B} (I : State → Prop) (Q : A → Prop)
    (f : A → M (list B)) xs :
  (∀ x st1 ys st2, x ∈ xs → I st1 → f x st1 = (Ok ys, st2) → I st2 ∧ Q x) →
  ∀ acc st0 l st',
    I st0 → extend_each f xs acc st0 = (Ok l, st') → I st' ∧ Forall Q xs.
Proof.
  induction xs as [|x xs IH]; intros Hf acc st0 l st' HI Hrun; simpl in Hrun.
  - unfold ret in Hrun. injection Hrun as _ <-. by split.
  - apply bind_inv_Ok in Hrun as (ys & st1 & Hx & Hrest).
    destruct (Hf x st0 ys st1 ltac:(by left) HI Hx) as [HI1 HQ].
    destruct (IH (λ y s1 zs s2 Hy, Hf y s1 zs s2 ltac:(by right))
                _ _ _ _ HI1 Hrest) as [HI' HQs].
    split; [done|by constructor].
Qed.

Lemma get_descendants_Ok_inv (st : State) (cyclic : eid → Prop) :
  is_Some (heap st !! root_element st) →
  (∀ i, cyclic i →
        ∃ ind c, as_individual (heap st) (Some i) = Some ind ∧
                 c ∈ children_of st ind ∧ cyclic c) →
  ∀ depth st1 i l st2,
    same_view st st1 →
    get_descendants depth (Some i) st1 = (Ok l, st2) →
    same_view st st2 ∧ ¬ cyclic i.
Proof.
  intros Hroot Hcyc depth.
  induction depth as [|depth IH]; intros st1 i l st2 Hview Hrun; [done|].
  destruct (same_view_facts _ _ Hview) as (Hh & Hr & Hd & Hc).
  assert (is_Some (heap st1 !! root_element st1)) as Hroot1
    by (by rewrite Hh, Hr).
  cbn [get_descendants] in Hrun.
  apply bind_inv_Ok in Hrun as (h & st1' & Hheap & Hrun).
  unfold get_heap in Hheap. injection Hheap as <- <-. rewrite Hh in Hrun.
  destruct (as_individual (heap st) (Some i)) as [ind|] eqn:Hind; [|done].
  apply bind_inv_Ok in Hrun as (families & st3 & Hfam & Hrun).
  rewrite (get_families_spec st1 i ind _ Hroot1) in Hfam by (by rewrite Hh).
  rewrite Hh, Hd in Hfam. fold (spouse_families st ind) in Hfam.
  injection Hfam as <- <-.
  apply (extend_each_Ok_inv (same_view st)
           (λ family, ∀ c, c ∈ children_in st family → ¬ cyclic c))
    in Hrun as [Hview2 Hfams]; [| |done].
  - split; [done|]. intros Hi.
    destruct (Hcyc i Hi) as (ind' & c & Hind' & Hchild & Hcc).
    rewrite Hind in Hind'. injection Hind' as <-.
    apply list_elem_of_bind in Hchild as (family & Hcin & Hfamily).
    rewrite Forall_forall in Hfams. by apply (Hfams family Hfamily c).
  - intros family s1 ys s2 _ Hs1 Hfamily.
    destruct (as_family (heap st) (Some family)) as [fam|] eqn:Hfam; [|done].
    apply (extend_each_Ok_inv (same_view st)
             (λ pointer, ∀ c, dictionary_of st !! pointer = Some c →
                              is_Some (as_individual (heap st) (Some c)) →
                              ¬ cyclic c))
      in Hfamily as [Hs2 Hptrs]; [| |done].
    + split; [done|]. intros c Hcin. unfold children_in in Hcin.
      rewrite Hfam in Hcin.
      apply list_elem_of_filter in Hcin as [Hcind Hcin].
      apply list_elem_of_omap in Hcin as (pointer & Hpointer & Hlook).
      rewrite Forall_forall in Hptrs. by apply (Hptrs pointer Hpointer c).
    + intros pointer s3 zs s4 _ Hs3 Hpointer.
      destruct (same_view_facts _ _ Hs3) as (Hh3 & Hr3 & Hd3 & Hc3).
      apply bind_inv_Ok in Hpointer as (child & s5 & Hchild & Hpointer).
      rewrite get_element_by_pointer_spec in Hchild by (by rewrite Hh3, Hr3).
      rewrite Hd3 in Hchild. injection Hchild as <- <-.
      destruct (dictionary_of st !! pointer) as [c|] eqn:Hlook.
      * destruct (as_individual (heap st) (Some c)) as [cind|] eqn:Hcind.
        -- apply bind_inv_Ok in Hpointer as (below & s6 & Hbelow & Hret).
           unfold ret in Hret. injection Hret as _ <-.
           destruct (IH _ _ _ _ Hc3 Hbelow) as [Hs6 Hnc].
           split; [done|]. by intros c' [= <-] _.
        -- unfold ret in Hpointer. injection Hpointer as _ <-.
           split; [done|]. intros c' [= <-] [? ?]. congruence.
      * unfold ret in Hpointer. injection Hpointer as _ <-.
        split; [done|]. by intros c' [=].
Qed.

(** X15. [get_descendants] does not guard against cycles: from a member of
    a set of Individuals in which every member has a child in the set (a
    person recorded as their own descendant), the call returns for no
    bound on the nesting of calls; it ends with an exception. *)
Theorem get_descendants_cycle_never_returns (st : State)
    (cyclic : eid → Prop) (depth : nat) (individual : eid) :
  is_Some (heap st !! root_element st) →
  (∀ i, cyclic i →
        ∃ ind c, as_individual (heap st) (Some i) = Some ind ∧
                 c ∈ children_of st ind ∧ cyclic c) →
  cyclic individual →
  ∃ e, (get_descendants depth (Some individual) st).1 = Raise e.
Proof.
  intros Hroot Hcyc Hi.
  destruct (get_descendants depth (Some individual) st) as [[l|e] st'] eqn:Hrun;
    [|by exists e].
  destruct (get_descendants_Ok_inv st cyclic Hroot Hcyc depth st individual
              l st' (or_introl eq_refl) Hrun) as [_ Hn].
  by destruct Hn.
Qed.

Lemma get_descendants_cycle_never_returns_witness :
  ∃ e, (get_descendants 50 (Some 2%nat) cycle_state).1 = Raise e.
Proof.
  apply (get_descendants_cycle_never_returns cycle_state (λ i, i = 2%nat)).
  - eexists. vm_compute. reflexivity.
  - intros i ->. eexists _, 2%nat. split_and!.
    + vm_compute. reflexivity.
    + apply (bool_decide_unpack _). vm_compute. exact I.
    + reflexivity.
  - reflexivity.
Defined.

(** ** A level that [int] does not convert *)

Lemma int_too_long s :
  (PyStr.int_max_str_digits < length s)%nat → PyStr.int s = None.
Proof.
  intros Hlen. unfold PyStr.int. case_decide; [done|].
  by rewrite (proj2 (Nat.leb_gt _ _) Hlen).
Qed.

(** X16. A line of the grammar whose level has more digits than [int]
    converts is no format violation for [parse_line]: in strict and in
    lenient mode the conversion raises [ValueError] before the level is
    compared with that of the previous element, and nothing is built. *)
Theorem level_too_long_raises_ValueError (line_number : nat) (lvl : str)
    (pointer : option str) (tag : str) (value : option str) (eol rest : str)
    (last_element : eid) (strict : bool) (st : State) :
  level_digits lvl → pointer_ok pointer → tag_ok tag → value_ok value →
  terminator_ok eol rest →
  is_Some (heap st !! last_element) →
  (PyStr.int_max_str_digits < length lvl)%nat →
  parse_line line_number (gedcom_line lvl pointer tag value eol ++ rest)
             last_element strict st
    = (Raise ValueError, st).
Proof.
  intros Hlvl Hptr Htag Hval Heol [prev Hprev] Hlen.
  pose proof (gedcom_line_match lvl pointer tag value eol rest
                Hlvl Hptr Htag Hval Heol) as Hmatch.
  unfold parse_line, bind, deref, line_fields. step_m.
  rewrite Hprev, Hmatch. unfold part. simpl.
  by rewrite (int_too_long lvl Hlen).
Qed.

Lemma level_too_long_raises_ValueError_witness :
  parse_line 1
    (gedcom_line (replicate 4301 49%N) None (py "NOTE") None [LF] ++ [])
    0 true Parser__init__
  = (Raise ValueError, Parser__init__).
Proof.
  apply level_too_long_raises_ValueError.
  - right. exists 49%N, (replicate 4300 49%N).
    split_and!; [reflexivity|reflexivity|].
    apply Forall_replicate. reflexivity.
  - exact I.
  - split; [discriminate|]. apply (bool_decide_unpack _). vm_compute. exact I.
  - exact I.
  - right. exists LF. split_and!; [reflexivity|reflexivity|discriminate].
  - eexists. reflexivity.
  - rewrite length_replicate. unfold PyStr.int_max_str_digits. lia.
Defined.
